(** * The blog platform contract (contract.ts, models.ts)

    A shallow embedding of the NEAR blog registry: the [BlogPost] entity with
    its [update] and [reconstruct] methods, the three private guards of
    [BlogContract] and its nine exposed operations.

    Conventions of the embedding.
    - The host ([near.*]) is a record [near.Env] read by every call: signer,
      contract account, attached deposit, random seed and block timestamp.
    - A contract method is a computation in the monad [call]: it threads the
      contract state and may panic.  A panic keeps the state reached when the
      failing [assert] ran, so that "a rejected call changes nothing" is a
      property of the order of guards and writes, not of the monad.
    - The SDK collections are modelled after near-sdk-js: an [UnorderedSet] is
      its element vector, an [UnorderedMap] its key vector paired with the
      stored values; removal is the SDK's swap-remove.  A value is serialized
      before it is written: an invalid date cannot be serialized, and an
      options object without a serializer leaves none to call.
    - A method declared [@call({})] rejects an attached deposit before its
      body runs.
    - Numbers ([limit], [from]) are integers; a [Date] is a time value in
      milliseconds or the invalid date, and storing then reloading a date
      gives the same date. *)

From Stdlib Require Import ZArith Lia.
From stdpp Require Import base decidable option list strings.

Open Scope string_scope.
Open Scope list_scope.

Definition AccountId := string.

(** ** The host environment *)

Module near.

Record Env := {
  signerAccountId : AccountId;
  currentAccountId : AccountId;
  attachedDeposit : Z;
  randomSeed : string;
  blockTimestamp : Z
}.

End near.

(** ** JavaScript values used by the contract *)

(** A [Date] holds a time value in milliseconds, or is the invalid date. *)
Inductive Date : Type :=
  | TimeValue (ms : Z)
  | InvalidDate.

(** The largest time value of a valid date. *)
Definition MAX_TIME_VALUE : Z := 8640000000000000.

(** [new Date(Number(t))] for a bigint [t].  Up to [MAX_TIME_VALUE] in absolute
    value [Number(t)] is exact; beyond it the date is invalid. *)
Definition Date_of_bigint (t : Z) : Date :=
  if (Z.abs t <=? MAX_TIME_VALUE)%Z then TimeValue t else InvalidDate.

Definition is_valid (d : Date) : bool :=
  match d with TimeValue _ => true | InvalidDate => false end.

(** [new Date(d)] for a date [d]: a copy. *)
Definition Date_of_date (d : Date) : Date := d.

(** A plain object with string values: its own properties in insertion order. *)
Definition JsObject := list (string * string).

(** [Object.keys(o)]. *)
Definition Object_keys (o : JsObject) : list string := o.*1.

(** [o[key]]; [None] is [undefined]. *)
Fixpoint prop (o : JsObject) (key : string) : option string :=
  match o with
  | [] => None
  | (k, v) :: o' => if decide (k = key) then Some v else prop o' key
  end.

(** Truthiness of an optional string: [undefined] and the empty string are
    falsy. *)
Definition truthy (v : option string) : bool :=
  match v with
  | Some s => negb (bool_decide (s = ""))
  | None => false
  end.

(** [Array.prototype.slice(start, end)] on integer arguments: a negative index
    counts from the end, and both are clamped to the array. *)
Definition js_slice {A} (l : list A) (start_ end_ : Z) : list A :=
  let len := Z.of_nat (length l) in
  let k := if (start_ <? 0)%Z then Z.max (len + start_) 0 else Z.min start_ len in
  let final := if (end_ <? 0)%Z then Z.max (len + end_) 0 else Z.min end_ len in
  take (Z.to_nat (final - k)) (drop (Z.to_nat k) l).

(** ** The SDK collections *)

(** [Vector.swapRemove(index)]: the last element takes the place of the
    removed one. *)
Definition swap_remove {A} (l : list A) (i : nat) : list A :=
  match last l with
  | None => l
  | Some x =>
      if decide (i < length l)%nat
      then (if decide (S i = length l) then removelast l
            else <[i := x]> (removelast l))
      else l
  end.

Module UnorderedSet.

Definition t := list AccountId.

Definition contains (s : t) (element : AccountId) : bool :=
  bool_decide (element ∈ s).

(** [set] appends the element unless it is already a member. *)
Definition set (s : t) (element : AccountId) : t :=
  if contains s element then s else s ++ [element].

(** [extend] calls [set] on every element in turn. *)
Definition extend (s : t) (elements : list AccountId) : t :=
  foldl set s elements.

Fixpoint index_of (s : t) (element : AccountId) : option nat :=
  match s with
  | [] => None
  | x :: s' => if decide (x = element) then Some 0%nat
               else S <$> index_of s' element
  end.

Definition remove (s : t) (element : AccountId) : t :=
  match index_of s element with
  | Some i => swap_remove s i
  | None => s
  end.

Definition toArray (s : t) : list AccountId := s.

End UnorderedSet.

Module UnorderedMap.

Definition t (V : Type) := list (string * V).

Fixpoint get {V} (m : t V) (key : string) : option V :=
  match m with
  | [] => None
  | (k, v) :: m' => if decide (k = key) then Some v else get m' key
  end.

(** [set] overwrites the value of a present key in place and appends a new
    key at the end. *)
Fixpoint set {V} (m : t V) (key : string) (value : V) : t V :=
  match m with
  | [] => [(key, value)]
  | (k, v) :: m' => if decide (k = key) then (k, value) :: m'
                    else (k, v) :: set m' key value
  end.

Fixpoint index_of {V} (m : t V) (key : string) : option nat :=
  match m with
  | [] => None
  | (k, _) :: m' => if decide (k = key) then Some 0%nat
                    else S <$> index_of m' key
  end.

Definition remove {V} (m : t V) (key : string) : t V :=
  match index_of m key with
  | Some i => swap_remove m i
  | None => m
  end.

Definition toArray {V} (m : t V) : list (string * V) := m.

Definition keys {V} (m : t V) : list string := m.*1.

End UnorderedMap.

(** ** Calls: state threading and panics *)

Inductive outcome (A : Type) : Type :=
  | Ok (a : A)
  | Panic (msg : string).
Arguments Ok {A} a.
Arguments Panic {A} msg.

Definition is_ok {A} (o : outcome A) : bool :=
  match o with Ok _ => true | Panic _ => false end.

Section CallMonad.

Context {S : Type}.

(** A call runs on a state and yields an outcome with the state it left. *)
Definition call (A : Type) : Type := S → outcome A * S.

Definition ret {A} (a : A) : call A := λ s, (Ok a, s).

Definition bind {A B} (m : call A) (k : A → call B) : call B :=
  λ s, match m s with
       | (Ok a, s') => k a s'
       | (Panic msg, s') => (Panic msg, s')
       end.

Definition panic {A} (msg : string) : call A := λ s, (Panic msg, s).

Definition read : call S := λ s, (Ok s, s).

Definition write (s' : S) : call unit := λ _, (Ok tt, s').

(** [assert(condition, message)] of near-sdk-js. *)
Definition assert (condition : bool) (message : string) : call unit :=
  if condition then ret tt else panic message.

(** [xs.forEach(f)]. *)
Fixpoint forEach {A} (xs : list A) (f : A → call unit) : call unit :=
  match xs with
  | [] => ret tt
  | x :: xs' => bind (f x) (λ _, forEach xs' f)
  end.

(** A method of another object that may itself panic. *)
Definition lift {A} (o : outcome A) : call A := λ s, (o, s).

End CallMonad.

(** ** models.ts: the blog post *)

Module BlogPost.

Record t := {
  title : string;
  ipfs_cid : string;
  thumnbnail_cid : string;
  id : string;
  author_id : AccountId;
  created_at : Date;
  last_updated_at : Date
}.

(** [UpdateBlogPost]: the patch object received by [update_blog_post]. *)
Definition UpdateBlogPost := JsObject.

(** The constructor, with its four defaulted parameters. *)
Definition new (env : near.Env) (title ipfs_cid thumnbnail_cid : string)
    (id : option string) (author_id : option AccountId)
    (created_at last_updated_at : option Date) : t :=
  {| title := title;
     ipfs_cid := ipfs_cid;
     thumnbnail_cid := thumnbnail_cid;
     id := default (near.randomSeed env) id;
     author_id := default (near.signerAccountId env) author_id;
     created_at := default (Date_of_bigint (near.blockTimestamp env)) created_at;
     last_updated_at :=
       default (Date_of_bigint (near.blockTimestamp env)) last_updated_at |}.

(** The keys accepted by [update]. *)
Definition updatable : list string :=
  ["author_id"; "title"; "ipfs_cid"; "thumnbnail_cid"].

(** [this[key] = value] for a key of [updatable]; [update] assigns no other
    key. *)
Definition assign (this : t) (key : string) (value : option string)
    : t :=
  match value with
  | None => this
  | Some v =>
      if decide (key = "author_id") then
        {| title := title this; ipfs_cid := ipfs_cid this;
           thumnbnail_cid := thumnbnail_cid this; id := id this;
           author_id := v; created_at := created_at this;
           last_updated_at := last_updated_at this |}
      else if decide (key = "title") then
        {| title := v; ipfs_cid := ipfs_cid this;
           thumnbnail_cid := thumnbnail_cid this; id := id this;
           author_id := author_id this; created_at := created_at this;
           last_updated_at := last_updated_at this |}
      else if decide (key = "ipfs_cid") then
        {| title := title this; ipfs_cid := v;
           thumnbnail_cid := thumnbnail_cid this; id := id this;
           author_id := author_id this; created_at := created_at this;
           last_updated_at := last_updated_at this |}
      else if decide (key = "thumnbnail_cid") then
        {| title := title this; ipfs_cid := ipfs_cid this;
           thumnbnail_cid := v; id := id this;
           author_id := author_id this; created_at := created_at this;
           last_updated_at := last_updated_at this |}
      else this
  end.

(** The test of [update]: the patch has a key and every key is updatable. *)
Definition accepted (updatedBlog : UpdateBlogPost) : bool :=
  let keysToUpdate := Object_keys updatedBlog in
  bool_decide (0 < length keysToUpdate)%nat
  && forallb (λ key, bool_decide (key ∈ updatable)) keysToUpdate.

(** [keysToUpdate.forEach((key) => (this[key] = updatedBlog[key]))]. *)
Definition apply (this : t) (updatedBlog : UpdateBlogPost) : t :=
  foldl (λ this key, assign this key (prop updatedBlog key))
        this (Object_keys updatedBlog).

Definition ERR_PERMISSION : string :=
  "You do not have permission to perform this action!".

(** [update]: returns the object after the call. *)
Definition update (env : near.Env) (this : t)
    (updatedBlog : UpdateBlogPost) : outcome t :=
  if bool_decide (near.signerAccountId env = author_id this) then
    Ok (if accepted updatedBlog then apply this updatedBlog else this)
  else Panic ERR_PERMISSION.

Definition reconstruct (blog : t) : t :=
  {| title := title blog;
     ipfs_cid := ipfs_cid blog;
     thumnbnail_cid := thumnbnail_cid blog;
     id := id blog;
     author_id := author_id blog;
     created_at := Date_of_date (created_at blog);
     last_updated_at := Date_of_date (last_updated_at blog) |}.

End BlogPost.

(** ** Serialization of a stored post *)

(** The messages of the two errors raised when a post is stored.  The text of
    the first is the engine's. *)
Definition ERR_INVALID_DATE : string := "Invalid time value".
Definition ERR_NO_SERIALIZER : string := "serializer is not a function".

(** The SDK's [serialize] on a blog post: it writes each date with
    [toISOString], which throws a RangeError on an invalid date. *)
Definition serialize (blog : BlogPost.t) : outcome unit :=
  if is_valid (BlogPost.created_at blog)
     && is_valid (BlogPost.last_updated_at blog)
  then Ok tt else Panic ERR_INVALID_DATE.

(** [serializeValueWithOptions(value, options)].  The SDK's [serialize] is the
    serializer only when no options object is passed; an options object
    without a [serializer] leaves it undefined, and calling it throws a
    TypeError.  [None] stands for such an options object. *)
Definition serializeValueWithOptions
    (serializer : option (BlogPost.t → outcome unit)) (value : BlogPost.t)
    : outcome unit :=
  match serializer with
  | Some f => f value
  | None => Panic ERR_NO_SERIALIZER
  end.

(** ** contract.ts: the registry *)

Module BlogContract.

Record t := {
  moderators : UnorderedSet.t;
  authors : UnorderedSet.t;
  denylist : UnorderedSet.t;
  blog_posts : UnorderedMap.t BlogPost.t
}.

Definition with_moderators (this : t) (m : UnorderedSet.t) : t :=
  {| moderators := m; authors := authors this;
     denylist := denylist this; blog_posts := blog_posts this |}.

Definition with_authors (this : t) (a : UnorderedSet.t) : t :=
  {| moderators := moderators this; authors := a;
     denylist := denylist this; blog_posts := blog_posts this |}.

Definition with_blog_posts (this : t) (b : UnorderedMap.t BlogPost.t) : t :=
  {| moderators := moderators this; authors := authors this;
     denylist := denylist this; blog_posts := b |}.

Definition ERR_ONE_YOCTO : string :=
  "You need to deposit exactly 1yoctoNEAR!".
Definition ERR_NOT_AUTHOR : string :=
  "You are not registered as an author, please register!".
Definition ERR_DENYLIST : string :=
  "This account is in the denylist!".
Definition ERR_PERMISSION : string :=
  "You do not have permission to perform this action!".
Definition ERR_NOT_FOUND : string :=
  "The requested blog post doesn't exist!".
Definition ERR_NOT_OWNER : string :=
  "You don't have permission to perform this action!".
Definition ERR_NOT_PAYABLE : string :=
  "Function is not payable".

(** A method of the contract. *)
Definition call_ (A : Type) : Type := @call t A.

Global Instance call__ret : MRet call_ := λ A, ret.
Global Instance call__bind : MBind call_ := λ A B k m, bind m k.

Section Methods.

Variable env : near.Env.

(** *** Guards *)

Definition assert_one_yocto : call_ unit :=
  assert (bool_decide (near.attachedDeposit env = 1%Z)) ERR_ONE_YOCTO.

Definition assert_is_author (account_id : option AccountId) : call_ unit :=
  let account_id := default (near.signerAccountId env) account_id in
  this ← read;
  assert (UnorderedSet.contains (authors this) account_id) ERR_NOT_AUTHOR.

Definition assert_not_in_deny_list (account_id : option AccountId)
    : call_ unit :=
  let account_id := default (near.signerAccountId env) account_id in
  this ← read;
  assert (negb (UnorderedSet.contains (denylist this) account_id))
         ERR_DENYLIST.

(** The test shared by [add_moderators] and [remove_moderators]. *)
Definition may_moderate (this : t) : bool :=
  bool_decide (near.signerAccountId env = near.currentAccountId env)
  || UnorderedSet.contains (moderators this) (near.signerAccountId env).

(** *** Moderators *)

Definition add_moderators (moderators_ : list AccountId) : call_ unit :=
  assert_one_yocto;;
  assert_not_in_deny_list None;;
  this ← read;
  assert (may_moderate this) ERR_PERMISSION;;
  forEach moderators_ (λ moderator, assert_not_in_deny_list (Some moderator));;
  this ← read;
  write (with_moderators this
           (UnorderedSet.extend (moderators this) moderators_)).

Definition remove_moderators (moderators_ : list AccountId) : call_ unit :=
  assert_one_yocto;;
  this ← read;
  assert (may_moderate this) ERR_PERMISSION;;
  forEach moderators_ (λ moderator,
    this ← read;
    write (with_moderators this
             (UnorderedSet.remove (moderators this) moderator))).

(** *** Authors *)

Definition register : call_ unit :=
  assert_one_yocto;;
  assert_not_in_deny_list None;;
  this ← read;
  write (with_authors this
           (UnorderedSet.set (authors this) (near.signerAccountId env))).

Definition get_authors (limit from : option Z) (this : t) : list AccountId :=
  let limit := default 20%Z limit in
  let from := default 0%Z from in
  js_slice (UnorderedSet.toArray (authors this)) from (from + limit).

(** *** Blog posts *)

Definition create_blog_post (title ipfs_cid thumnbnail_cid : string)
    : call_ BlogPost.t :=
  assert_is_author None;;
  let blogPost :=
    BlogPost.new env title ipfs_cid thumnbnail_cid None None None None in
  this ← read;
  lift (serializeValueWithOptions (Some serialize) blogPost);;
  write (with_blog_posts this
           (UnorderedMap.set (blog_posts this) (BlogPost.id blogPost) blogPost));;
  mret blogPost.

(** [update_blog_post] up to and including [blogPost.update(update_blog)]
    (lines 178 to 190): the guards, then the patch applied to the post object
    read from the collection.  Nothing is written yet. *)
Definition patched_blog_post (blog_id : string)
    (update_blog : BlogPost.UpdateBlogPost) : call_ BlogPost.t :=
  assert_is_author None;;
  this ← read;
  match BlogPost.reconstruct <$> UnorderedMap.get (blog_posts this) blog_id with
  | None => panic ERR_NOT_FOUND
  | Some blogPost =>
      (if truthy (prop update_blog "author_id")
       then assert_not_in_deny_list (prop update_blog "author_id")
       else mret tt);;
      lift (BlogPost.update env blogPost update_blog)
  end.

(** The whole method: the patched post is stored with
    [set(blog_id, blogPost, { reconstructor })] (lines 192 to 194), an options
    object that has no serializer, and returned. *)
Definition update_blog_post (blog_id : string)
    (update_blog : BlogPost.UpdateBlogPost) : call_ BlogPost.t :=
  blogPost ← patched_blog_post blog_id update_blog;
  this ← read;
  lift (serializeValueWithOptions None blogPost);;
  write (with_blog_posts this
           (UnorderedMap.set (blog_posts this) blog_id blogPost));;
  mret blogPost.

(** [@call({})]: [remove_blog_post] is not declared payable, unlike the five
    other call methods, so a deposit is rejected before the body runs. *)
Definition not_payable : call_ unit :=
  if (0 <? near.attachedDeposit env)%Z then panic ERR_NOT_PAYABLE else ret tt.

Definition remove_blog_post (blog_id : string) : call_ (option BlogPost.t) :=
  not_payable;;
  assert_is_author None;;
  this ← read;
  match BlogPost.reconstruct <$> UnorderedMap.get (blog_posts this) blog_id with
  | None => panic ERR_NOT_FOUND
  | Some blogPost =>
      assert (bool_decide (near.signerAccountId env = BlogPost.author_id blogPost))
             ERR_NOT_OWNER;;
      this ← read;
      let removed := UnorderedMap.get (blog_posts this) blog_id in
      write (with_blog_posts this
               (UnorderedMap.remove (blog_posts this) blog_id));;
      mret removed
  end.

Definition get_blog_post (blog_id : string) (this : t) : option BlogPost.t :=
  BlogPost.reconstruct <$> UnorderedMap.get (blog_posts this) blog_id.

Definition get_blog_posts (limit from : option Z)
    (author_id : option AccountId) (this : t) : list BlogPost.t :=
  let limit := default 20%Z limit in
  let from := default 0%Z from in
  js_slice
    (List.filter (λ blogPost,
               if truthy author_id
               then bool_decide (Some (BlogPost.author_id blogPost) = author_id)
               else true)
            ((UnorderedMap.toArray (blog_posts this)).*2))
    from (from + limit).

End Methods.

End BlogContract.

(** ** Vocabulary of the properties *)

Import BlogContract.

(** [this[key]] for the four keys [update] may assign. *)
Definition field (this : BlogPost.t) (key : string) : option string :=
  if decide (key = "author_id") then Some (BlogPost.author_id this)
  else if decide (key = "title") then Some (BlogPost.title this)
  else if decide (key = "ipfs_cid") then Some (BlogPost.ipfs_cid this)
  else if decide (key = "thumnbnail_cid") then Some (BlogPost.thumnbnail_cid this)
  else None.

(** A patch is recognized when it is non-empty and all its keys are among the
    four mutable fields. *)
Definition recognized (update_blog : BlogPost.UpdateBlogPost) : Prop :=
  Object_keys update_blog ≠ []
  ∧ ∀ key, key ∈ Object_keys update_blog → key ∈ BlogPost.updatable.

(** The signer is a registered author and the current author of the post
    stored under [blog_id]. *)
Definition owns (env : near.Env) (this : t) (blog_id : string)
    (blogPost : BlogPost.t) : Prop :=
  near.signerAccountId env ∈ authors this
  ∧ UnorderedMap.get (blog_posts this) blog_id = Some blogPost
  ∧ near.signerAccountId env = BlogPost.author_id blogPost.



(** The patch does not name a denylisted account as the new author. *)
Definition target_allowed (this : t)
    (update_blog : BlogPost.UpdateBlogPost) : Prop :=
  ∀ a, prop update_blog "author_id" = Some a → a ≠ "" → a ∉ denylist this.

(** The exposed mutating methods and their dispatch. *)
Inductive method : Type :=
  | AddModerators (moderators_ : list AccountId)
  | RemoveModerators (moderators_ : list AccountId)
  | Register
  | CreateBlogPost (title ipfs_cid thumnbnail_cid : string)
  | UpdateBlogPost (blog_id : string) (update_blog : BlogPost.UpdateBlogPost)
  | RemoveBlogPost (blog_id : string).

Definition exec (env : near.Env) (m : method) : call_ (option BlogPost.t) :=
  match m with
  | AddModerators ms => add_moderators env ms;; mret None
  | RemoveModerators ms => remove_moderators env ms;; mret None
  | Register => register env;; mret None
  | CreateBlogPost title ipfs_cid thumnbnail_cid =>
      blogPost ← create_blog_post env title ipfs_cid thumnbnail_cid;
      mret (Some blogPost)
  | UpdateBlogPost blog_id update_blog =>
      blogPost ← update_blog_post env blog_id update_blog;
      mret (Some blogPost)
  | RemoveBlogPost blog_id => remove_blog_post env blog_id
  end.

(** A history is a sequence of calls, each with the environment the host gave
    it.  The host keeps the state of a call that returned and discards the
    writes of one that panicked. *)
Definition history := list (near.Env * method).

Definition is_create (m : method) : bool :=
  match m with CreateBlogPost _ _ _ => true | _ => false end.

Fixpoint run (calls : history) (this : t) : t :=
  match calls with
  | [] => this
  | (env, m) :: calls' =>
      match exec env m this with
      | (Ok _, this') => run calls' this'
      | (Panic _, _) => run calls' this
      end
  end.

(** The posts returned by the successful [create_blog_post] calls of a
    history, in order. *)
Fixpoint created (calls : history) (this : t) : list BlogPost.t :=
  match calls with
  | [] => []
  | (env, m) :: calls' =>
      match exec env m this with
      | (Ok r, this') =>
          (if is_create m then option_list r else []) ++ created calls' this'
      | (Panic _, _) => created calls' this
      end
  end.

(** The ids under which a successful [create_blog_post] of a history replaced
    a post that was stored. *)
Fixpoint overwritten (calls : history) (this : t) : list string :=
  match calls with
  | [] => []
  | (env, m) :: calls' =>
      match exec env m this with
      | (Ok r, this') =>
          (if is_create m
              && bool_decide (is_Some (UnorderedMap.get (blog_posts this)
                                         (near.randomSeed env)))
           then [near.randomSeed env] else [])
          ++ overwritten calls' this'
      | (Panic _, _) => overwritten calls' this
      end
  end.

(** The random seeds the host gave to the [create_blog_post] calls. *)
Definition create_seeds (calls : history) : list string :=
  (λ c, near.randomSeed c.1) <$> List.filter (λ c, is_create c.2) calls.

(** Pagination as the specification words it: skip [from] items, keep at most
    [limit]. *)
Definition page {A} (l : list A) (from limit : nat) : list A :=
  take limit (drop from l).

(** The posts of the collection, in order, kept when [author_id] is absent or
    their author is [author_id]. *)
Definition posts_by (author_id : option AccountId) (this : t)
    : list BlogPost.t :=
  match author_id with
  | Some a => List.filter (λ p, bool_decide (BlogPost.author_id p = a))
                          (blog_posts this).*2
  | None => (blog_posts this).*2
  end.

(** The posts selected by [get_blog_posts]: those of [author_id] when it is a
    non-empty account name, every post otherwise. *)
Definition selected (author_id : option AccountId) (this : t)
    : list BlogPost.t :=
  match author_id with
  | Some a => if decide (a = "") then (blog_posts this).*2
              else posts_by (Some a) this
  | None => (blog_posts this).*2
  end.

(** *** Sample environments and states *)

Definition env_of (signer : AccountId) (deposit : Z) (seed : string)
    : near.Env :=
  {| near.signerAccountId := signer;
     near.currentAccountId := "blog.near";
     near.attachedDeposit := deposit;
     near.randomSeed := seed;
     near.blockTimestamp := 1700000000000%Z |}.

Definition post_of (id title : string) (author : AccountId) : BlogPost.t :=
  {| BlogPost.title := title; BlogPost.ipfs_cid := "cid";
     BlogPost.thumnbnail_cid := "thumb"; BlogPost.id := id;
     BlogPost.author_id := author;
     BlogPost.created_at := TimeValue 1600000000000;
     BlogPost.last_updated_at := TimeValue 1600000000000 |}.

(** alice is an author, mallory is denylisted, no post yet. *)
Definition registry0 : t :=
  {| moderators := ["mod.near"]; authors := ["alice"];
     denylist := ["mallory"]; blog_posts := [] |}.

(** [registry0] with one post of alice stored under [p1]. *)
Definition registry1 : t :=
  with_blog_posts registry0 [("p1", post_of "p1" "hello" "alice")].

(** [registry1] with the empty account name on the denylist as well. *)
Definition registry2 : t :=
  {| moderators := moderators registry1; authors := authors registry1;
     denylist := ["mallory"; ""]; blog_posts := blog_posts registry1 |}.


(** alice creates five posts, one call after the other. *)
Definition five_creates : history :=
  [ (env_of "alice" 1 "p1", CreateBlogPost "one" "c1" "t1");
    (env_of "alice" 1 "p2", CreateBlogPost "two" "c2" "t2");
    (env_of "alice" 1 "p3", CreateBlogPost "three" "c3" "t3");
    (env_of "alice" 1 "p4", CreateBlogPost "four" "c4" "t4");
    (env_of "alice" 1 "p5", CreateBlogPost "five" "c5" "t5") ].

Definition registry5 : t := run five_creates registry0.

(** alice creates two posts and the host gives both calls the same seed. *)
Definition same_seed_creates : history :=
  [ (env_of "alice" 1 "seed", CreateBlogPost "first" "c1" "t1");
    (env_of "alice" 1 "seed", CreateBlogPost "second" "c2" "t2") ].

(** [blogPost] with another title. *)
Definition with_title (blogPost : BlogPost.t) (title : string) : BlogPost.t :=
  {| BlogPost.title := title;
     BlogPost.ipfs_cid := BlogPost.ipfs_cid blogPost;
     BlogPost.thumnbnail_cid := BlogPost.thumnbnail_cid blogPost;
     BlogPost.id := BlogPost.id blogPost;
     BlogPost.author_id := BlogPost.author_id blogPost;
     BlogPost.created_at := BlogPost.created_at blogPost;
     BlogPost.last_updated_at := BlogPost.last_updated_at blogPost |}.

(** The statements of the specification that the code does not satisfy as
    they stand. *)



Definition denylisted_rejected_claim : Prop :=
  ∀ this d,
    d ∈ denylist this →
    (∀ env,
       near.signerAccountId env = d →
       register env this = (Panic ERR_DENYLIST, this))
    ∧ (∀ env accounts,
         d ∈ accounts →
         add_moderators env accounts this = (Panic ERR_DENYLIST, this))
    ∧ (∀ env blog_id update_blog,
         prop update_blog "author_id" = Some d →
         update_blog_post env blog_id update_blog this
         = (Panic ERR_DENYLIST, this)).

Definition pagination_claim : Prop :=
  ∀ this limit (from : Z) author_id,
    (∀ a, author_id = Some a →
          ∀ p, p ∈ get_blog_posts limit (Some from) author_id this →
               BlogPost.author_id p = a)
    ∧ ((from < 0 ∨ Z.of_nat (length (posts_by author_id this)) ≤ from)%Z →
       get_blog_posts limit (Some from) author_id this = []).


Definition unique_ids_claim : Prop :=
  ∀ calls this,
    blog_posts this = [] →
    NoDup (BlogPost.id <$> created calls this) ∧ overwritten calls this = [].

(** *** Further vocabulary *)

(** The shape the collections keep: no account twice in a set, no key twice
    among the posts, and every post stored under its own id. *)
Definition well_formed (this : t) : Prop :=
  NoDup (moderators this)
  ∧ NoDup (authors this)
  ∧ NoDup (denylist this)
  ∧ NoDup (UnorderedMap.keys (blog_posts this))
  ∧ ∀ key blogPost,
      (key, blogPost) ∈ blog_posts this → BlogPost.id blogPost = key.

(** The accounts that signed a [register] call of a history. *)
Definition register_signers (calls : history) : list AccountId :=
  (λ c, near.signerAccountId c.1)
    <$> List.filter (λ c, match c.2 with Register => true | _ => false end)
                    calls.

(** [registry1] with bob registered as an author too. *)
Definition registry4 : t :=
  with_authors registry1 ["alice"; "bob"].

(** * Properties *)

(** ** The collections *)

Lemma contains_elem_of (s : UnorderedSet.t) (x : AccountId) :
  UnorderedSet.contains s x = true ↔ x ∈ s.
Proof. unfold UnorderedSet.contains. apply bool_decide_eq_true. Qed.

Lemma contains_not_elem_of (s : UnorderedSet.t) (x : AccountId) :
  UnorderedSet.contains s x = false ↔ x ∉ s.
Proof. unfold UnorderedSet.contains. apply bool_decide_eq_false. Qed.

Section MapFacts.

Context {V : Type}.
Implicit Types (m : UnorderedMap.t V) (k : string) (v : V).

Lemma get_set_eq m k v : UnorderedMap.get (UnorderedMap.set m k v) k = Some v.
Proof.
  induction m as [|[k0 v0] m IH]; simpl.
  - by rewrite decide_True.
  - destruct (decide (k0 = k)) as [->|Hne]; simpl.
    + by rewrite decide_True.
    + by rewrite decide_False.
Qed.

Lemma get_set_ne m k k' v :
  k' ≠ k → UnorderedMap.get (UnorderedMap.set m k v) k' = UnorderedMap.get m k'.
Proof.
  intros Hne. induction m as [|[k0 v0] m IH]; simpl.
  - by rewrite decide_False.
  - destruct (decide (k0 = k)) as [->|Hk]; simpl.
    + by rewrite !decide_False.
    + by rewrite IH.
Qed.

Lemma set_stored m k v : UnorderedMap.get m k = Some v → UnorderedMap.set m k v = m.
Proof.
  induction m as [|[k0 v0] m IH]; simpl; [done|].
  destruct (decide (k0 = k)) as [->|Hk]; [by intros [= ->]|].
  intros H. by rewrite IH.
Qed.

Lemma get_None_keys m k : UnorderedMap.get m k = None ↔ k ∉ UnorderedMap.keys m.
Proof.
  unfold UnorderedMap.keys. induction m as [|[k0 v0] m IH]; simpl.
  - split; [intros _; apply not_elem_of_nil | done].
  - rewrite not_elem_of_cons. destruct (decide (k0 = k)) as [->|Hk].
    + split; [done | by intros [? _]].
    + rewrite IH. split; [by intros ?; split; [congruence|] | by intros [_ ?]].
Qed.

Lemma keys_set_present m k v :
  is_Some (UnorderedMap.get m k) →
  UnorderedMap.keys (UnorderedMap.set m k v) = UnorderedMap.keys m.
Proof.
  unfold UnorderedMap.keys. induction m as [|[k0 v0] m IH]; simpl.
  - by intros [? ?].
  - destruct (decide (k0 = k)) as [->|Hk]; simpl; [done|].
    intros H. f_equal. by apply IH.
Qed.

Lemma set_absent m k v :
  UnorderedMap.get m k = None → UnorderedMap.set m k v = m ++ [(k, v)].
Proof.
  induction m as [|[k0 v0] m IH]; simpl; [done|].
  destruct (decide (k0 = k)) as [->|Hk]; [done|].
  intros H. by rewrite IH.
Qed.

End MapFacts.

(** ** The blog post *)

Lemma reconstruct_id (blog : BlogPost.t) : BlogPost.reconstruct blog = blog.
Proof. by destruct blog. Qed.

Lemma accepted_recognized (update_blog : BlogPost.UpdateBlogPost) :
  BlogPost.accepted update_blog = true ↔ recognized update_blog.
Proof.
  unfold BlogPost.accepted, recognized.
  rewrite andb_true_iff, bool_decide_eq_true, forallb_forall.
  split; intros [Hlen Hall]; split.
  - intros Hnil. rewrite Hnil in Hlen. simpl in Hlen. lia.
  - intros key Hkey. apply list_elem_of_In in Hkey.
    specialize (Hall key Hkey). by apply bool_decide_eq_true in Hall.
  - destruct (Object_keys update_blog); [done | simpl; lia].
  - intros key Hkey. apply bool_decide_eq_true, Hall. by apply list_elem_of_In.
Qed.


Lemma prop_is_Some (o : JsObject) (key : string) :
  key ∈ Object_keys o → is_Some (prop o key).
Proof.
  unfold Object_keys. induction o as [|[k v] o IH]; simpl.
  - by intros ?%elem_of_nil.
  - intros [->|Hin]%elem_of_cons.
    + rewrite decide_True; eauto.
    + destruct (decide (k = key)); eauto.
Qed.

Lemma field_assign_eq (this : BlogPost.t) (key v : string) :
  key ∈ BlogPost.updatable → field (BlogPost.assign this key (Some v)) key = Some v.
Proof.
  unfold BlogPost.updatable. rewrite !elem_of_cons, elem_of_nil.
  intros [->|[->|[->|[->|[]]]]]; reflexivity.
Qed.

Lemma field_assign_ne (this : BlogPost.t) (key k : string) (v : option string) :
  key ≠ k → field (BlogPost.assign this k v) key = field this key.
Proof.
  intros Hne. destruct v as [v|]; [|done]. unfold BlogPost.assign, field.
  repeat (case_decide; simplify_eq/=; try done).
Qed.

Section Apply.

Variable update_blog : BlogPost.UpdateBlogPost.

Let step (this : BlogPost.t) (key : string) : BlogPost.t :=
  BlogPost.assign this key (prop update_blog key).

Lemma assign_frame (this : BlogPost.t) (key : string) (v : option string) :
  BlogPost.id (BlogPost.assign this key v) = BlogPost.id this
  ∧ BlogPost.created_at (BlogPost.assign this key v) = BlogPost.created_at this
  ∧ BlogPost.last_updated_at (BlogPost.assign this key v)
    = BlogPost.last_updated_at this.
Proof.
  destruct v as [v|]; [|done]. unfold BlogPost.assign.
  repeat (case_decide; simpl; try done).
Qed.

Lemma foldl_assign_frame (keys : list string) (this : BlogPost.t) :
  BlogPost.id (foldl step this keys) = BlogPost.id this
  ∧ BlogPost.created_at (foldl step this keys) = BlogPost.created_at this
  ∧ BlogPost.last_updated_at (foldl step this keys)
    = BlogPost.last_updated_at this.
Proof.
  revert this. induction keys as [|k keys IH]; intros this; simpl; [done|].
  destruct (IH (step this k)) as (-> & -> & ->). apply assign_frame.
Qed.

Lemma field_foldl_assign (keys : list string) (this : BlogPost.t) (key : string) :
  (∀ k, k ∈ keys → is_Some (prop update_blog k)) →
  key ∈ BlogPost.updatable →
  field (foldl step this keys) key
  = if decide (key ∈ keys) then prop update_blog key else field this key.
Proof.
  intros Hsome Hkey. revert this Hsome.
  induction keys as [|k keys IH]; intros this Hsome; simpl.
  - destruct (decide (key ∈ [])) as [Hin|_]; [by apply elem_of_nil in Hin | done].
  - rewrite IH by (intros k' Hk'; apply Hsome; by right).
    destruct (decide (key = k)) as [->|Hne].
    + destruct (decide (k ∈ k :: keys)) as [_|Hn]; [|by destruct Hn; left].
      destruct (Hsome k) as [v Hv]; [left|]. unfold step. rewrite Hv.
      rewrite field_assign_eq by done. by destruct (decide (k ∈ keys)).
    + unfold step. rewrite field_assign_ne by done.
      destruct (decide (key ∈ keys)) as [Hin|Hin];
        destruct (decide (key ∈ k :: keys)) as [Hin'|Hin']; try done.
      * destruct Hin'. by right.
      * apply elem_of_cons in Hin' as [?|?]; done.
Qed.

Lemma field_foldl_assign_other (keys : list string) (this : BlogPost.t) (key : string) :
  key ∉ keys → field (foldl step this keys) key = field this key.
Proof.
  revert this. induction keys as [|k keys IH]; intros this Hnot; simpl; [done|].
  apply not_elem_of_cons in Hnot as [Hne Hnot].
  rewrite IH by done. unfold step. by apply field_assign_ne.
Qed.

End Apply.

Lemma apply_frame (this : BlogPost.t) (update_blog : BlogPost.UpdateBlogPost) :
  BlogPost.id (BlogPost.apply this update_blog) = BlogPost.id this
  ∧ BlogPost.created_at (BlogPost.apply this update_blog) = BlogPost.created_at this
  ∧ BlogPost.last_updated_at (BlogPost.apply this update_blog)
    = BlogPost.last_updated_at this.
Proof. apply foldl_assign_frame. Qed.

Lemma field_apply_listed this (update_blog : BlogPost.UpdateBlogPost) key :
  key ∈ Object_keys update_blog → key ∈ BlogPost.updatable →
  field (BlogPost.apply this update_blog) key = prop update_blog key.
Proof.
  intros Hin Hupd. unfold BlogPost.apply.
  rewrite field_foldl_assign; [| intros k; apply prop_is_Some | done].
  by destruct (decide (key ∈ Object_keys update_blog)).
Qed.

Lemma field_apply_unlisted this (update_blog : BlogPost.UpdateBlogPost) key :
  key ∉ Object_keys update_blog →
  field (BlogPost.apply this update_blog) key = field this key.
Proof. apply field_foldl_assign_other. Qed.

(** ** What each method computes *)

Section Unfold.

Variable env : near.Env.
Implicit Types (this : BlogContract.t).

Let signer := near.signerAccountId env.

Lemma with_blog_posts_stored this :
  with_blog_posts this (blog_posts this) = this.
Proof. by destruct this. Qed.

Lemma forEach_deny_check (accounts : list AccountId) this :
  forEach accounts (λ account, assert_not_in_deny_list env (Some account)) this
  = if forallb (λ account, negb (UnorderedSet.contains (denylist this) account))
               accounts
    then (Ok tt, this) else (Panic ERR_DENYLIST, this).
Proof.
  induction accounts as [|a accounts IH]; simpl; [done|].
  unfold bind, assert_not_in_deny_list, mbind, call__bind, bind, read, assert;
    simpl.
  destruct (UnorderedSet.contains (denylist this) a); simpl; [done|].
  apply IH.
Qed.

Lemma forEach_remove (accounts : list AccountId) this :
  forEach accounts (λ moderator,
    this ← read;
    write (with_moderators this
             (UnorderedSet.remove (moderators this) moderator))) this
  = (Ok tt,
     with_moderators this (foldl UnorderedSet.remove (moderators this) accounts)).
Proof.
  revert this. induction accounts as [|a accounts IH]; intros this; simpl.
  - by destruct this.
  - unfold bind, mbind, call__bind, bind, read, write; simpl.
    rewrite IH. by destruct this.
Qed.

Lemma add_moderators_unfold (accounts : list AccountId) this :
  add_moderators env accounts this =
    if bool_decide (near.attachedDeposit env = 1%Z) then
      if UnorderedSet.contains (denylist this) signer
      then (Panic ERR_DENYLIST, this)
      else if may_moderate env this then
        if forallb (λ account,
                      negb (UnorderedSet.contains (denylist this) account))
                   accounts
        then (Ok tt,
              with_moderators this
                (UnorderedSet.extend (moderators this) accounts))
        else (Panic ERR_DENYLIST, this)
      else (Panic ERR_PERMISSION, this)
    else (Panic ERR_ONE_YOCTO, this).
Proof.
  unfold add_moderators, assert_one_yocto, assert_not_in_deny_list, mbind,
    call__bind, bind, read, assert, ret, panic, write; simpl.
  destruct (bool_decide (near.attachedDeposit env = 1%Z)); simpl; [|done].
  fold signer. destruct (UnorderedSet.contains (denylist this) signer); simpl;
    [done|].
  destruct (may_moderate env this); simpl; [|done].
  pose proof (forEach_deny_check accounts this) as Hchk.
  unfold assert_not_in_deny_list, mbind, call__bind, bind, read, assert, ret,
    panic in Hchk; simpl in Hchk. rewrite Hchk.
  by destruct (forallb _ accounts).
Qed.

Lemma remove_moderators_unfold (accounts : list AccountId) this :
  remove_moderators env accounts this =
    if bool_decide (near.attachedDeposit env = 1%Z) then
      if may_moderate env this
      then (Ok tt,
            with_moderators this
              (foldl UnorderedSet.remove (moderators this) accounts))
      else (Panic ERR_PERMISSION, this)
    else (Panic ERR_ONE_YOCTO, this).
Proof.
  unfold remove_moderators, assert_one_yocto, mbind, call__bind, bind, read,
    assert, ret, panic, write; simpl.
  destruct (bool_decide (near.attachedDeposit env = 1%Z)); simpl; [|done].
  destruct (may_moderate env this); simpl; [|done].
  pose proof (forEach_remove accounts this) as Hrm.
  unfold mbind, call__bind, bind, read, assert, ret, panic, write in Hrm;
    simpl in Hrm. by rewrite Hrm.
Qed.

Lemma register_unfold this :
  register env this =
    if bool_decide (near.attachedDeposit env = 1%Z) then
      if UnorderedSet.contains (denylist this) signer
      then (Panic ERR_DENYLIST, this)
      else (Ok tt, with_authors this (UnorderedSet.set (authors this) signer))
    else (Panic ERR_ONE_YOCTO, this).
Proof.
  unfold register, assert_one_yocto, assert_not_in_deny_list, mbind,
    call__bind, bind, read, assert, ret, panic, write; simpl.
  destruct (bool_decide (near.attachedDeposit env = 1%Z)); simpl; [|done].
  fold signer. by destruct (UnorderedSet.contains (denylist this) signer).
Qed.

Lemma create_blog_post_unfold (title ipfs_cid thumnbnail_cid : string) this :
  create_blog_post env title ipfs_cid thumnbnail_cid this =
    if UnorderedSet.contains (authors this) signer then
      if is_valid (Date_of_bigint (near.blockTimestamp env)) then
        let blogPost :=
          BlogPost.new env title ipfs_cid thumnbnail_cid None None None None in
        (Ok blogPost,
         with_blog_posts this
           (UnorderedMap.set (blog_posts this) (near.randomSeed env) blogPost))
      else (Panic ERR_INVALID_DATE, this)
    else (Panic ERR_NOT_AUTHOR, this).
Proof.
  unfold create_blog_post, assert_is_author, mbind, call__bind, bind, read,
    assert, ret, panic, write, mret, call__ret, ret, lift,
    serializeValueWithOptions, serialize; simpl.
  fold signer. destruct (UnorderedSet.contains (authors this) signer); [|done].
  simpl. by destruct (is_valid (Date_of_bigint (near.blockTimestamp env))).
Qed.

Lemma patched_blog_post_unfold (blog_id : string)
    (update_blog : BlogPost.UpdateBlogPost) this :
  patched_blog_post env blog_id update_blog this =
    if UnorderedSet.contains (authors this) signer then
      match UnorderedMap.get (blog_posts this) blog_id with
      | None => (Panic ERR_NOT_FOUND, this)
      | Some blogPost =>
          if truthy (prop update_blog "author_id")
             && UnorderedSet.contains (denylist this)
                  (default signer (prop update_blog "author_id"))
          then (Panic ERR_DENYLIST, this)
          else if bool_decide (signer = BlogPost.author_id blogPost) then
            (Ok (if BlogPost.accepted update_blog
                 then BlogPost.apply blogPost update_blog else blogPost),
             this)
          else (Panic BlogPost.ERR_PERMISSION, this)
      end
    else (Panic ERR_NOT_AUTHOR, this).
Proof.
  unfold patched_blog_post, assert_is_author, assert_not_in_deny_list, mbind,
    call__bind, bind, read, assert, mret, call__ret, ret, panic, lift,
    BlogPost.update; simpl. fold signer.
  destruct (UnorderedSet.contains (authors this) signer); simpl; [|done].
  destruct (UnorderedMap.get (blog_posts this) blog_id) as [p|]; simpl; [|done].
  rewrite reconstruct_id.
  destruct (truthy (prop update_blog "author_id")); simpl.
  - destruct (UnorderedSet.contains (denylist this) _); simpl; [done|].
    by destruct (bool_decide _).
  - by destruct (bool_decide _).
Qed.

(** The store of [update_blog_post] has no serializer to call: the method
    ends in that error whenever its guards and [BlogPost.update] pass. *)
Lemma update_blog_post_patched (blog_id : string)
    (update_blog : BlogPost.UpdateBlogPost) this :
  update_blog_post env blog_id update_blog this =
    match patched_blog_post env blog_id update_blog this with
    | (Ok _, this') => (Panic ERR_NO_SERIALIZER, this')
    | (Panic msg, this') => (Panic msg, this')
    end.
Proof.
  unfold update_blog_post, mbind, call__bind, bind, read, lift,
    serializeValueWithOptions.
  by destruct (patched_blog_post env blog_id update_blog this) as [[p|msg] s].
Qed.

Lemma update_blog_post_unfold (blog_id : string)
    (update_blog : BlogPost.UpdateBlogPost) this :
  update_blog_post env blog_id update_blog this =
    if UnorderedSet.contains (authors this) signer then
      match UnorderedMap.get (blog_posts this) blog_id with
      | None => (Panic ERR_NOT_FOUND, this)
      | Some blogPost =>
          if truthy (prop update_blog "author_id")
             && UnorderedSet.contains (denylist this)
                  (default signer (prop update_blog "author_id"))
          then (Panic ERR_DENYLIST, this)
          else if bool_decide (signer = BlogPost.author_id blogPost)
          then (Panic ERR_NO_SERIALIZER, this)
          else (Panic BlogPost.ERR_PERMISSION, this)
      end
    else (Panic ERR_NOT_AUTHOR, this).
Proof.
  rewrite update_blog_post_patched, patched_blog_post_unfold.
  repeat case_match; simplify_eq/=; done.
Qed.

Lemma remove_blog_post_unfold (blog_id : string) this :
  remove_blog_post env blog_id this =
    if (0 <? near.attachedDeposit env)%Z then (Panic ERR_NOT_PAYABLE, this)
    else if UnorderedSet.contains (authors this) signer then
      match UnorderedMap.get (blog_posts this) blog_id with
      | None => (Panic ERR_NOT_FOUND, this)
      | Some blogPost =>
          if bool_decide (signer = BlogPost.author_id blogPost)
          then (Ok (Some blogPost),
                with_blog_posts this
                  (UnorderedMap.remove (blog_posts this) blog_id))
          else (Panic ERR_NOT_OWNER, this)
      end
    else (Panic ERR_NOT_AUTHOR, this).
Proof.
  unfold remove_blog_post, not_payable, assert_is_author, mbind, call__bind,
    bind, read, assert, mret, call__ret, ret, panic, write; simpl. fold signer.
  destruct (0 <? near.attachedDeposit env)%Z; simpl; [done|].
  destruct (UnorderedSet.contains (authors this) signer); simpl; [|done].
  destruct (UnorderedMap.get (blog_posts this) blog_id) as [p|] eqn:Hget;
    simpl; [|done].
  destruct (bool_decide _); simpl; [by rewrite Hget | done].
Qed.

End Unfold.

(** ** Patches are applied all-or-nothing *)

Lemma owns_tests env this blog_id blogPost :
  owns env this blog_id blogPost →
  UnorderedSet.contains (authors this) (near.signerAccountId env) = true
  ∧ bool_decide (near.signerAccountId env = BlogPost.author_id blogPost) = true.
Proof.
  intros (Hauthor & _ & Hown). split.
  - by apply contains_elem_of.
  - by apply bool_decide_eq_true.
Qed.

Lemma target_allowed_test env this (update_blog : BlogPost.UpdateBlogPost) :
  target_allowed this update_blog →
  truthy (prop update_blog "author_id")
  && UnorderedSet.contains (denylist this)
       (default (near.signerAccountId env) (prop update_blog "author_id"))
  = false.
Proof.
  intros Hallowed. destruct (prop update_blog "author_id") as [a|] eqn:Ha;
    simpl; [|done].
  destruct (bool_decide (a = "")) eqn:Hempty; simpl; [done|].
  apply bool_decide_eq_false in Hempty.
  apply contains_not_elem_of. by apply Hallowed.
Qed.




(** ** Rejected calls change nothing *)

(** C2: whenever a call of one of the six mutating methods is rejected, the
    state left by the call, with its four collections and every stored post,
    is the state before the call. *)
Theorem rejected_call_changes_nothing env (m : method) (this : BlogContract.t) :
  is_ok (exec env m this).1 = false → (exec env m this).2 = this.
Proof.
  destruct m as [ms|ms| |title cid thumb|blog_id update_blog|blog_id];
    unfold exec, mbind, call__bind, bind, mret, call__ret, ret.
  - rewrite add_moderators_unfold.
    repeat (case_match; simplify_eq/=); done.
  - rewrite remove_moderators_unfold.
    repeat (case_match; simplify_eq/=); done.
  - rewrite register_unfold.
    repeat (case_match; simplify_eq/=); done.
  - rewrite create_blog_post_unfold.
    repeat (case_match; simplify_eq/=); done.
  - rewrite update_blog_post_unfold.
    repeat (case_match; simplify_eq/=); done.
  - rewrite remove_blog_post_unfold.
    repeat (case_match; simplify_eq/=); done.
Qed.

Lemma rejected_call_changes_nothing_witness :
  (exec (env_of "mallory" 1 "seed") Register registry0).2 = registry0.
Proof. apply rejected_call_changes_nothing. reflexivity. Defined.

(** ** Author transfer *)

Lemma patched_blog_post_Ok env this blog_id update_blog blogPost' this' :
  patched_blog_post env blog_id update_blog this = (Ok blogPost', this') →
  ∃ blogPost,
    near.signerAccountId env ∈ authors this
    ∧ UnorderedMap.get (blog_posts this) blog_id = Some blogPost
    ∧ near.signerAccountId env = BlogPost.author_id blogPost
    ∧ target_allowed this update_blog
    ∧ blogPost' = (if BlogPost.accepted update_blog
                   then BlogPost.apply blogPost update_blog else blogPost)
    ∧ this' = this.
Proof.
  rewrite patched_blog_post_unfold.
  destruct (UnorderedSet.contains (authors this) _) eqn:Hauthor; [|done].
  destruct (UnorderedMap.get (blog_posts this) blog_id) as [p|]; [|done].
  destruct (_ && _) eqn:Hdeny; [done|].
  destruct (bool_decide _) eqn:Hown; [|done].
  intros [= <- <-]. exists p.
  apply contains_elem_of in Hauthor. apply bool_decide_eq_true in Hown.
  repeat split; try done.
  intros a Ha Hne. rewrite Ha in Hdeny. simpl in Hdeny.
  rewrite (bool_decide_eq_false_2 _ Hne) in Hdeny. simpl in Hdeny.
  by apply contains_not_elem_of.
Qed.


Lemma prop_in_keys (o : JsObject) (key v : string) :
  prop o key = Some v → key ∈ Object_keys o.
Proof.
  unfold Object_keys. induction o as [|[k w] o IH]; simpl; [done|].
  destruct (decide (k = key)) as [->|]; [left | right; auto].
Qed.



(** ** Denylisted accounts *)

Lemma deny_check_fails this (accounts : list AccountId) d :
  d ∈ denylist this → d ∈ accounts →
  forallb (λ account, negb (UnorderedSet.contains (denylist this) account))
          accounts = false.
Proof.
  intros Hd Hin. apply not_true_is_false. rewrite forallb_forall.
  intros Hall. apply list_elem_of_In in Hin. specialize (Hall d Hin).
  apply contains_elem_of in Hd. by rewrite Hd in Hall.
Qed.

(** C5: for an account [d] of the denylist, [register] signed by [d],
    [add_moderators] with [d] among the targets and [update_blog_post] with a
    patch naming [d] as the new author are rejected with the denylist error,
    and leave the registry as it was.  The calls are otherwise in order: one
    yoctoNEAR attached where the method asks for it, a signer allowed to
    moderate, a registered author updating an existing post; [d] is a
    non-empty account name.  Without these assumptions the three calls are
    still rejected, by the first guard that fails, and change nothing. *)
Theorem denylisted_account_rejected (this : BlogContract.t) (d : AccountId) :
  d ∈ denylist this →
  (∀ env,
     near.signerAccountId env = d → near.attachedDeposit env = 1%Z →
     register env this = (Panic ERR_DENYLIST, this))
  ∧ (∀ env accounts,
       near.attachedDeposit env = 1%Z → may_moderate env this = true →
       d ∈ accounts →
       add_moderators env accounts this = (Panic ERR_DENYLIST, this))
  ∧ (∀ env blog_id update_blog,
       d ≠ "" →
       near.signerAccountId env ∈ authors this →
       is_Some (UnorderedMap.get (blog_posts this) blog_id) →
       prop update_blog "author_id" = Some d →
       update_blog_post env blog_id update_blog this
       = (Panic ERR_DENYLIST, this))
  ∧ (∀ env,
       near.signerAccountId env = d →
       ∃ msg, register env this = (Panic msg, this))
  ∧ (∀ env accounts,
       d ∈ accounts →
       ∃ msg, add_moderators env accounts this = (Panic msg, this))
  ∧ (∀ env blog_id update_blog,
       d ≠ "" →
       prop update_blog "author_id" = Some d →
       ∃ msg, update_blog_post env blog_id update_blog this = (Panic msg, this)).
Proof.
  intros Hd. pose proof Hd as Hdc. apply contains_elem_of in Hdc.
  split; [|split; [|split; [|split; [|split]]]]; cycle 3.
  - intros env Hsigner. rewrite register_unfold, Hsigner, Hdc.
    destruct (bool_decide _); eauto.
  - intros env accounts Hin.
    rewrite add_moderators_unfold, (deny_check_fails _ _ _ Hd Hin).
    repeat case_match; eauto.
  - intros env blog_id update_blog Hne Hprop.
    rewrite update_blog_post_unfold, Hprop. simpl.
    rewrite (bool_decide_eq_false_2 _ Hne), Hdc. simpl.
    repeat case_match; eauto.
  - intros env Hsigner Hdeposit.
    rewrite register_unfold, Hsigner, Hdc.
    by rewrite (bool_decide_eq_true_2 _ Hdeposit).
  - intros env accounts Hdeposit Hmay Hin.
    rewrite add_moderators_unfold, Hmay, (deny_check_fails _ _ _ Hd Hin).
    rewrite (bool_decide_eq_true_2 _ Hdeposit).
    by destruct (UnorderedSet.contains (denylist this) (near.signerAccountId env)).
  - intros env blog_id update_blog Hne Hauthor [p Hget] Hprop.
    apply contains_elem_of in Hauthor.
    rewrite update_blog_post_unfold, Hauthor, Hget, Hprop. simpl.
    by rewrite (bool_decide_eq_false_2 _ Hne), Hdc.
Qed.

Lemma denylisted_account_rejected_witness :
  register (env_of "mallory" 1 "seed") registry1
  = (Panic ERR_DENYLIST, registry1)
  ∧ add_moderators (env_of "blog.near" 1 "seed") ["carol"; "mallory"] registry1
    = (Panic ERR_DENYLIST, registry1)
  ∧ update_blog_post (env_of "alice" 1 "seed") "p1" [("author_id", "mallory")]
      registry1
    = (Panic ERR_DENYLIST, registry1).
Proof.
  assert (Hd : "mallory" ∈ denylist registry1).
  { apply contains_elem_of. reflexivity. }
  destruct (denylisted_account_rejected registry1 "mallory" Hd)
    as (Hregister & Hadd & Hupdate & _).
  split; [|split].
  - apply Hregister; reflexivity.
  - apply Hadd; [reflexivity | reflexivity |].
    apply (contains_elem_of ["carol"; "mallory"]). reflexivity.
  - apply Hupdate; [discriminate | | by eexists | reflexivity].
    apply contains_elem_of. reflexivity.
Defined.

(** C5 (as stated) fails: the denylist error is given only when the call
    reaches the denylist guard.  mallory registering without the deposit gets
    the deposit error, a stranger naming mallory as moderator gets the
    permission error, and an empty account name on the denylist passes the
    guard of [update_blog_post]. *)
Lemma denylisted_account_counterexample :
  "mallory" ∈ denylist registry2
  ∧ "" ∈ denylist registry2
  ∧ register (env_of "mallory" 0 "seed") registry2
    = (Panic ERR_ONE_YOCTO, registry2)
  ∧ add_moderators (env_of "eve" 1 "seed") ["mallory"] registry2
    = (Panic ERR_PERMISSION, registry2)
  ∧ patched_blog_post (env_of "alice" 1 "seed") "p1" [("author_id", "")]
      registry2
    = (Ok (post_of "p1" "hello" ""), registry2)
  ∧ ¬ denylisted_rejected_claim.
Proof.
  assert (Hd : "mallory" ∈ denylist registry2).
  { apply contains_elem_of. reflexivity. }
  split; [exact Hd|].
  split; [apply contains_elem_of; reflexivity|].
  split; [reflexivity|]. split; [reflexivity|]. split; [reflexivity|].
  intros Hclaim. destruct (Hclaim registry2 "mallory" Hd) as [Hregister _].
  specialize (Hregister (env_of "mallory" 0 "seed") eq_refl).
  discriminate Hregister.
Qed.
(** ** What an update changes, and that it is not stored *)

(** C6 (the code departs from the claim): [BlogPost.update], run by
    [update_blog_post] after its guards, changes only fields named in the
    patch: the [id], [created_at] and [last_updated_at] of the post object are
    those of the stored post and a field whose key is not in the patch keeps
    its value; a patch [{title: t}] sent by the post's author gives the post
    object the title [t] and nothing else.  But the store that follows has no
    serializer to call: the call ends in that error, and the stored post
    keeps its title. *)
Theorem update_title_not_stored env this blog_id blogPost :
  UnorderedMap.get (blog_posts this) blog_id = Some blogPost →
  (∀ update_blog blogPost' this',
     patched_blog_post env blog_id update_blog this = (Ok blogPost', this') →
     BlogPost.id blogPost' = BlogPost.id blogPost
     ∧ BlogPost.created_at blogPost' = BlogPost.created_at blogPost
     ∧ BlogPost.last_updated_at blogPost' = BlogPost.last_updated_at blogPost
     ∧ (∀ key, key ∉ Object_keys update_blog →
               field blogPost' key = field blogPost key)
     ∧ this' = this)
  ∧ (∀ t,
       near.signerAccountId env ∈ authors this →
       near.signerAccountId env = BlogPost.author_id blogPost →
       patched_blog_post env blog_id [("title", t)] this
       = (Ok (with_title blogPost t), this)
       ∧ update_blog_post env blog_id [("title", t)] this
         = (Panic ERR_NO_SERIALIZER, this)).
Proof.
  intros Hget. split.
  - intros update_blog blogPost' this' Hok.
    apply patched_blog_post_Ok in Hok as (p & _ & Hget' & _ & _ & -> & ->).
    rewrite Hget in Hget'. injection Hget' as <-.
    destruct (BlogPost.accepted update_blog); [|done].
    destruct (apply_frame blogPost update_blog) as (Hid & Hcreated & Hupdated).
    repeat split; try done.
    intros key Hkey. by apply field_apply_unlisted.
  - intros t Hauthor%contains_elem_of Hown.
    rewrite update_blog_post_unfold, patched_blog_post_unfold, Hauthor, Hget.
    simpl. by rewrite (bool_decide_eq_true_2 _ Hown).
Qed.

Lemma update_title_not_stored_witness :
  patched_blog_post (env_of "alice" 1 "seed") "p1" [("title", "new")] registry1
  = (Ok (with_title (post_of "p1" "hello" "alice") "new"), registry1)
  ∧ update_blog_post (env_of "alice" 1 "seed") "p1" [("title", "new")]
      registry1
    = (Panic ERR_NO_SERIALIZER, registry1).
Proof.
  apply (update_title_not_stored (env_of "alice" 1 "seed") registry1 "p1"
           (post_of "p1" "hello" "alice")).
  - reflexivity.
  - apply contains_elem_of. reflexivity.
  - reflexivity.
Defined.
(** ** Registration *)

(** C7: an account that is not denylisted and attaches exactly one yoctoNEAR
    is in the authors set after [register]; a second [register] from the
    state so reached succeeds and leaves that state, hence the authors set
    and its size, as it is. *)
Theorem register_idempotent env (this : BlogContract.t) :
  near.signerAccountId env ∉ denylist this →
  near.attachedDeposit env = 1%Z →
  ∃ this1,
    register env this = (Ok tt, this1)
    ∧ near.signerAccountId env ∈ authors this1
    ∧ register env this1 = (Ok tt, this1)
    ∧ length (authors (register env this1).2) = length (authors this1).
Proof.
  intros Hdeny Hdeposit. apply contains_not_elem_of in Hdeny.
  apply (bool_decide_eq_true_2 _) in Hdeposit.
  set (signer := near.signerAccountId env) in *.
  exists (with_authors this (UnorderedSet.set (authors this) signer)).
  assert (Hin : signer ∈ UnorderedSet.set (authors this) signer).
  { unfold UnorderedSet.set.
    destruct (UnorderedSet.contains (authors this) signer) eqn:Hc.
    - by apply contains_elem_of.
    - apply elem_of_app. right. apply list_elem_of_singleton. done. }
  assert (Hagain :
    register env (with_authors this (UnorderedSet.set (authors this) signer))
    = (Ok tt, with_authors this (UnorderedSet.set (authors this) signer))).
  { rewrite register_unfold, Hdeposit. simpl. fold signer. rewrite Hdeny.
    unfold with_authors at 1. simpl.
    unfold UnorderedSet.set at 1.
    apply contains_elem_of in Hin. by rewrite Hin. }
  split; [|split; [|split]].
  - rewrite register_unfold, Hdeposit. fold signer. by rewrite Hdeny.
  - done.
  - done.
  - by rewrite Hagain.
Qed.

Lemma register_idempotent_witness :
  ∃ this1,
    register (env_of "bob" 1 "seed") registry0 = (Ok tt, this1)
    ∧ "bob" ∈ authors this1
    ∧ register (env_of "bob" 1 "seed") this1 = (Ok tt, this1)
    ∧ length (authors (register (env_of "bob" 1 "seed") this1).2)
      = length (authors this1).
Proof.
  apply (register_idempotent (env_of "bob" 1 "seed") registry0).
  - apply contains_not_elem_of. reflexivity.
  - reflexivity.
Defined.

(** ** The empty author name *)

(** C9 (the code departs from the claim in its last step): the denylist guard
    of [update_blog_post] runs only on a truthy [author_id]: a call rejected
    with the denylist error carried a non-empty denylisted [author_id].  A
    patch whose [author_id] is the empty string is never checked against the
    denylist, whatever the denylist holds, and when all its keys are
    recognized [BlogPost.update] applies it: the post object has the empty
    string as its author.  But the store that follows has no serializer to
    call: the call ends in that error and the stored post keeps its
    author. *)
Theorem empty_author_id_skips_denylist env this blog_id update_blog :
  (∀ this',
     update_blog_post env blog_id update_blog this
     = (Panic ERR_DENYLIST, this') →
     ∃ a, prop update_blog "author_id" = Some a ∧ a ≠ "" ∧ a ∈ denylist this)
  ∧ (∀ blogPost,
       owns env this blog_id blogPost →
       prop update_blog "author_id" = Some "" →
       recognized update_blog →
       ∃ blogPost',
         patched_blog_post env blog_id update_blog this = (Ok blogPost', this)
         ∧ BlogPost.author_id blogPost' = ""
         ∧ blogPost' = BlogPost.apply blogPost update_blog
         ∧ update_blog_post env blog_id update_blog this
           = (Panic ERR_NO_SERIALIZER, this)
         ∧ get_blog_post blog_id this = Some blogPost).
Proof.
  split.
  - intros this'. rewrite update_blog_post_unfold.
    destruct (UnorderedSet.contains (authors this) _); [|done].
    destruct (UnorderedMap.get (blog_posts this) blog_id) as [p|]; [|done].
    assert (Hother :
      (if bool_decide (near.signerAccountId env = BlogPost.author_id p)
       then (@Panic BlogPost.t ERR_NO_SERIALIZER, this)
       else (Panic BlogPost.ERR_PERMISSION, this))
      = (Panic ERR_DENYLIST, this') → False).
    { by destruct (bool_decide _); intros [=]. }
    destruct (prop update_blog "author_id") as [a|] eqn:Ha; simpl.
    + destruct (bool_decide (a = "")) eqn:Hempty; simpl.
      * intros Heq. by destruct (Hother Heq).
      * destruct (UnorderedSet.contains (denylist this) a) eqn:Hdeny.
        -- intros _. exists a. apply bool_decide_eq_false in Hempty.
           apply contains_elem_of in Hdeny. done.
        -- intros Heq. by destruct (Hother Heq).
    + intros Heq. by destruct (Hother Heq).
  - intros blogPost Howns Hempty Hrec.
    destruct (owns_tests _ _ _ _ Howns) as [Hauthor Hown].
    destruct Howns as (_ & Hget & _).
    pose proof Hrec as [_ Hkeys]. apply accepted_recognized in Hrec.
    exists (BlogPost.apply blogPost update_blog).
    split; [|split; [|split; [done|split]]].
    + rewrite patched_blog_post_unfold, Hauthor, Hget, Hempty, Hown. simpl.
      by rewrite Hrec.
    + pose proof (prop_in_keys _ _ _ Hempty) as Hin.
      pose proof (field_apply_listed blogPost update_blog "author_id" Hin
                    (Hkeys _ Hin)) as Hfield.
      rewrite Hempty in Hfield. by injection Hfield.
    + by rewrite update_blog_post_unfold, Hauthor, Hget, Hempty, Hown.
    + unfold get_blog_post. rewrite Hget. simpl. by rewrite reconstruct_id.
Qed.

Lemma empty_author_id_skips_denylist_witness :
  "" ∈ denylist registry2
  ∧ ∃ blogPost',
      patched_blog_post (env_of "alice" 1 "seed") "p1"
        [("author_id", ""); ("title", "gone")] registry2
      = (Ok blogPost', registry2)
      ∧ BlogPost.author_id blogPost' = ""
      ∧ blogPost' = BlogPost.apply (post_of "p1" "hello" "alice")
                      [("author_id", ""); ("title", "gone")]
      ∧ update_blog_post (env_of "alice" 1 "seed") "p1"
          [("author_id", ""); ("title", "gone")] registry2
        = (Panic ERR_NO_SERIALIZER, registry2)
      ∧ get_blog_post "p1" registry2 = Some (post_of "p1" "hello" "alice").
Proof.
  split.
  - apply contains_elem_of. reflexivity.
  - apply (proj2 (empty_author_id_skips_denylist (env_of "alice" 1 "seed")
                    registry2 "p1" [("author_id", ""); ("title", "gone")])).
    + repeat split. apply contains_elem_of. reflexivity.
    + reflexivity.
    + apply accepted_recognized. reflexivity.
Defined.
(** ** Owners that are not authors *)

Lemma remove_blog_post_Ok env this blog_id r this' :
  remove_blog_post env blog_id this = (Ok r, this') →
  ∃ blogPost,
    near.signerAccountId env ∈ authors this
    ∧ UnorderedMap.get (blog_posts this) blog_id = Some blogPost
    ∧ near.signerAccountId env = BlogPost.author_id blogPost
    ∧ r = Some blogPost
    ∧ this' = with_blog_posts this
                (UnorderedMap.remove (blog_posts this) blog_id)
    ∧ (near.attachedDeposit env ≤ 0)%Z.
Proof.
  rewrite remove_blog_post_unfold.
  destruct (Z.ltb_spec 0 (near.attachedDeposit env)) as [?|Hdep]; [done|].
  destruct (UnorderedSet.contains (authors this) _) eqn:Hauthor; [|done].
  destruct (UnorderedMap.get (blog_posts this) blog_id) as [p|]; [|done].
  destruct (bool_decide _) eqn:Hown; [|done].
  intros [= <- <-]. exists p.
  apply contains_elem_of in Hauthor. apply bool_decide_eq_true in Hown. done.
Qed.



(** ** Pagination *)

Section Slice.

Context {A : Type}.
Implicit Types (l : list A).

Lemma js_slice_page l (from limit : nat) :
  js_slice l (Z.of_nat from) (Z.of_nat from + Z.of_nat limit) = page l from limit.
Proof.
  unfold js_slice, page.
  destruct (Z.ltb_spec (Z.of_nat from) 0) as [?|_]; [lia|].
  destruct (Z.ltb_spec (Z.of_nat from + Z.of_nat limit) 0) as [?|_]; [lia|].
  destruct (decide (from ≤ length l)%nat) as [Hle|Hgt].
  - replace (Z.to_nat (Z.of_nat from `min` Z.of_nat (length l))) with from by lia.
    destruct (decide (limit ≤ length l - from)%nat) as [Hlim|Hlim].
    + f_equal. lia.
    + rewrite !take_ge; [done | rewrite length_drop; lia | rewrite length_drop; lia].
  - rewrite (drop_ge l from) by lia.
    rewrite drop_ge by lia. by rewrite !take_nil.
Qed.

Lemma js_slice_out_of_range l (start_ end_ : Z) :
  (Z.of_nat (length l) ≤ start_)%Z → js_slice l start_ end_ = [].
Proof.
  intros Hout. unfold js_slice.
  destruct (Z.ltb_spec start_ 0) as [?|_]; [lia|].
  rewrite drop_ge by lia. apply take_nil.
Qed.

Lemma js_slice_page_Z l (from limit : Z) :
  (0 ≤ from)%Z → (0 ≤ limit)%Z →
  js_slice l from (from + limit) = page l (Z.to_nat from) (Z.to_nat limit).
Proof.
  intros Hfrom Hlimit. rewrite <- js_slice_page. by rewrite !Z2Nat.id.
Qed.

Lemma js_slice_from_end l (from end_ : Z) :
  (from < 0)%Z → (- Z.of_nat (length l) ≤ from)%Z →
  (Z.of_nat (length l) ≤ end_)%Z →
  js_slice l from end_ = drop (Z.to_nat (Z.of_nat (length l) + from)) l.
Proof.
  intros Hneg Hfar Hend. unfold js_slice.
  destruct (Z.ltb_spec from 0) as [_|?]; [|lia].
  destruct (Z.ltb_spec end_ 0) as [?|_]; [lia|].
  rewrite Z.max_l, Z.min_r by lia. apply take_ge. rewrite length_drop. lia.
Qed.

End Slice.

Lemma get_blog_posts_filter (limit from : option Z) author_id this :
  author_id ≠ Some "" →
  get_blog_posts limit from author_id this
  = js_slice (posts_by author_id this) (default 0%Z from)
      (default 0%Z from + default 20%Z limit).
Proof.
  intros Hne. unfold get_blog_posts, posts_by, UnorderedMap.toArray.
  destruct author_id as [a|]; simpl.
  - rewrite bool_decide_eq_false_2 by (intros ->; by apply Hne). simpl.
    f_equal. apply filter_ext. intros p.
    apply bool_decide_ext. split; [by intros [= ->] | by intros ->].
  - f_equal. induction ((blog_posts this).*2) as [|p l IH]; simpl; congruence.
Qed.

Lemma get_blog_posts_selected (limit from : option Z) author_id this :
  get_blog_posts limit from author_id this
  = js_slice (selected author_id this) (default 0%Z from)
      (default 0%Z from + default 20%Z limit).
Proof.
  destruct author_id as [a|]; [destruct (decide (a = "")) as [->|Hne]|].
  - unfold get_blog_posts, selected, UnorderedMap.toArray. simpl. f_equal.
    induction ((blog_posts this).*2) as [|p l IH]; simpl; congruence.
  - unfold selected. rewrite decide_False by done.
    apply get_blog_posts_filter. congruence.
  - by apply get_blog_posts_filter.
Qed.

(** C8 (as amended): [get_blog_posts] selects the posts, in the order of the
    collection, of [author_id] when it is a non-empty account name and all
    posts otherwise, and returns [slice(from, from + limit)] of that
    sequence, with [limit = 20] and [from = 0] each when absent.  For
    non-negative [from] and [limit] this skips [from] posts and keeps at most
    [limit].  With five posts of alice stored as [p1] to [p5], [limit = 2],
    [from = 1] and [author_id = "alice"] give [[p2; p3]].  A [from] at or
    beyond the end of the selected sequence gives the empty list, whatever
    [limit] is.  A negative [from] counts from the end: when it reaches no
    further back than the sequence is long and [from + limit] reaches its
    end, the last [- from] posts are returned. *)
Theorem get_blog_posts_page (this : BlogContract.t) :
  (∀ limit from author_id,
     get_blog_posts limit from author_id this
     = js_slice (selected author_id this) (default 0%Z from)
         (default 0%Z from + default 20%Z limit))
  ∧ (∀ limit from author_id,
       (0 ≤ default 0 from)%Z → (0 ≤ default 20 limit)%Z →
       get_blog_posts limit from author_id this
       = page (selected author_id this) (Z.to_nat (default 0%Z from))
           (Z.to_nat (default 20%Z limit)))
  ∧ (∀ p1 p2 p3 p4 p5,
       (blog_posts this).*2 = [p1; p2; p3; p4; p5] →
       Forall (λ p, BlogPost.author_id p = "alice") [p1; p2; p3; p4; p5] →
       get_blog_posts (Some 2%Z) (Some 1%Z) (Some "alice") this = [p2; p3])
  ∧ (∀ limit (from : Z) author_id,
       (Z.of_nat (length (selected author_id this)) ≤ from)%Z →
       get_blog_posts limit (Some from) author_id this = [])
  ∧ (∀ limit (from : Z) author_id,
       (from < 0)%Z →
       (- Z.of_nat (length (selected author_id this)) ≤ from)%Z →
       (Z.of_nat (length (selected author_id this))
        ≤ from + default 20 limit)%Z →
       get_blog_posts limit (Some from) author_id this
       = drop (Z.to_nat (Z.of_nat (length (selected author_id this)) + from))
           (selected author_id this)).
Proof.
  split; [|split; [|split; [|split]]].
  - intros limit from author_id. apply get_blog_posts_selected.
  - intros limit from author_id Hfrom Hlimit.
    rewrite get_blog_posts_selected. by apply js_slice_page_Z.
  - intros p1 p2 p3 p4 p5 Hposts Hall.
    rewrite get_blog_posts_filter by done. unfold posts_by. rewrite Hposts.
    rewrite !Forall_cons in Hall.
    destruct Hall as (H1 & H2 & H3 & H4 & H5 & _). simpl.
    rewrite !bool_decide_eq_true_2 by done. reflexivity.
  - intros limit from author_id Hout.
    rewrite get_blog_posts_selected. simpl.
    by apply js_slice_out_of_range.
  - intros limit from author_id Hneg Hfar Hend.
    rewrite get_blog_posts_selected. simpl.
    by apply js_slice_from_end.
Qed.

Lemma get_blog_posts_page_witness :
  get_blog_posts (Some 2%Z) (Some 1%Z) (Some "alice") registry5
  = [ BlogPost.new (env_of "alice" 1 "p2") "two" "c2" "t2" None None None None;
      BlogPost.new (env_of "alice" 1 "p3") "three" "c3" "t3" None None None None ]
  ∧ get_blog_posts (Some 2%Z) (Some 5%Z) (Some "alice") registry5 = []
  ∧ get_blog_posts None (Some (-2)%Z) (Some "") registry5
    = drop 3 (selected (Some "") registry5)
  ∧ get_blog_posts None (Some 3%Z) None registry5
    = page (selected None registry5) 3 20.
Proof.
  destruct (get_blog_posts_page registry5)
    as (_ & Hpage & Hfive & Hout & Hend).
  split; [|split; [|split]].
  - apply (Hfive
      (BlogPost.new (env_of "alice" 1 "p1") "one" "c1" "t1" None None None None)
      _ _
      (BlogPost.new (env_of "alice" 1 "p4") "four" "c4" "t4" None None None None)
      (BlogPost.new (env_of "alice" 1 "p5") "five" "c5" "t5" None None None None)).
    + reflexivity.
    + repeat constructor.
  - apply Hout. vm_compute. discriminate.
  - apply (Hend None (-2)%Z (Some "")); vm_compute; congruence.
  - apply (Hpage None (Some 3%Z) None); vm_compute; congruence.
Defined.

(** C8 (as stated) fails: a negative [from] is out of range as an offset, yet
    it returns the last post; and an empty [author_id], though given, is not
    filtered on: all posts of alice are returned. *)
Lemma get_blog_posts_page_counterexample :
  BlogPost.id <$> get_blog_posts None (Some (-1)%Z) None registry5 = ["p5"]
  ∧ BlogPost.author_id <$> get_blog_posts (Some 2%Z) (Some 0%Z) (Some "")
                             registry5
    = ["alice"; "alice"]
  ∧ ¬ pagination_claim.
Proof.
  split; [reflexivity|]. split; [reflexivity|].
  intros Hclaim.
  destruct (Hclaim registry5 None (-1)%Z None) as [_ Hout].
  assert (Hempty : get_blog_posts None (Some (-1)%Z) None registry5 = []).
  { apply Hout. left. lia. }
  discriminate Hempty.
Qed.

(** Outside the claim: a negative [from] is not out of range for
    [Array.prototype.slice], it counts from the end; and an empty [author_id]
    is falsy, so it selects every post. *)
Remark get_blog_posts_negative_from :
  BlogPost.id <$> get_blog_posts None (Some (-1)%Z) None registry5 = ["p5"]
  ∧ BlogPost.id <$> get_blog_posts None None (Some "") registry5
    = ["p1"; "p2"; "p3"; "p4"; "p5"].
Proof. split; reflexivity. Qed.

(** ** Post ids over a history of calls *)

Lemma elem_of_insert_inv {A} (l : list A) (i : nat) (x y : A) :
  y ∈ <[i:=x]> l → y = x ∨ y ∈ l.
Proof.
  revert i. induction l as [|z l IH]; intros [|i]; simpl; try by right.
  - intros [->|Hin]%elem_of_cons; [by left | right; by right].
  - intros [->|Hin]%elem_of_cons; [right; by left|].
    destruct (IH i Hin) as [->|Hl]; [by left | right; by right].
Qed.

Lemma elem_of_swap_remove {A} (l : list A) (i : nat) (y : A) :
  y ∈ swap_remove l i → y ∈ l.
Proof.
  unfold swap_remove. destruct (last l) as [x|] eqn:Hlast; [|done].
  apply last_Some in Hlast as [l' ->]. rewrite removelast_last.
  repeat case_decide; try done.
  - intros Hin. apply elem_of_app. by left.
  - intros [->|Hin]%elem_of_insert_inv; apply elem_of_app.
    + right. by left.
    + by left.
Qed.

Lemma keys_remove {V} (m : UnorderedMap.t V) (key k : string) :
  k ∈ UnorderedMap.keys (UnorderedMap.remove m key) → k ∈ UnorderedMap.keys m.
Proof.
  unfold UnorderedMap.keys, UnorderedMap.remove.
  destruct (UnorderedMap.index_of m key) as [i|]; [|done].
  intros ([k' v] & -> & Hin%elem_of_swap_remove)%list_elem_of_fmap.
  apply list_elem_of_fmap. by exists (k', v).
Qed.

Lemma keys_set {V} (m : UnorderedMap.t V) (key k : string) (v : V) :
  k ∈ UnorderedMap.keys (UnorderedMap.set m key v) →
  k = key ∨ k ∈ UnorderedMap.keys m.
Proof.
  destruct (UnorderedMap.get m key) as [w|] eqn:Hget.
  - rewrite keys_set_present by eauto. by right.
  - rewrite (set_absent _ _ _ Hget). unfold UnorderedMap.keys.
    rewrite fmap_app. intros [Hin|Hin]%elem_of_app; [by right|].
    left. simpl in Hin. by apply list_elem_of_singleton in Hin.
Qed.

(** The keys of the post collection after a call that returned: those it had,
    and the seed of the call when it is a creation. *)
Lemma exec_keys env (m : method) this r this' (k : string) :
  exec env m this = (Ok r, this') →
  k ∈ UnorderedMap.keys (blog_posts this') →
  k ∈ UnorderedMap.keys (blog_posts this)
  ∨ (is_create m = true ∧ k = near.randomSeed env).
Proof.
  destruct m as [ms|ms| |title cid thumb|blog_id update_blog|blog_id];
    unfold exec, mbind, call__bind, bind, mret, call__ret, ret.
  - rewrite add_moderators_unfold.
    repeat (case_match; simplify_eq/=); intros ? ?; simplify_eq/=; by left.
  - rewrite remove_moderators_unfold.
    repeat (case_match; simplify_eq/=); intros ? ?; simplify_eq/=; by left.
  - rewrite register_unfold.
    repeat (case_match; simplify_eq/=); intros ? ?; simplify_eq/=; by left.
  - rewrite create_blog_post_unfold.
    repeat (case_match; simplify_eq/=); intros ?; simplify_eq/=.
    intros [->|Hin]%keys_set; [by right | by left].
  - rewrite update_blog_post_unfold.
    repeat (case_match; simplify_eq/=); intros ?; simplify_eq/=.
  - intros Hremove.
    apply remove_blog_post_Ok in Hremove as (p0 & _ & _ & _ & _ & -> & _).
    simpl. intros Hin%keys_remove. by left.
Qed.

Lemma exec_create env title cid thumb this r this' :
  exec env (CreateBlogPost title cid thumb) this = (Ok r, this') →
  ∃ blogPost, r = Some blogPost ∧ BlogPost.id blogPost = near.randomSeed env.
Proof.
  unfold exec, mbind, call__bind, bind, mret, call__ret, ret.
  rewrite create_blog_post_unfold.
  repeat (case_match; simplify_eq/=); intros ?; simplify_eq/=. eauto.
Qed.

Lemma created_ids_seeds (calls : history) this (k : string) :
  k ∈ BlogPost.id <$> created calls this → k ∈ create_seeds calls.
Proof.
  revert this. induction calls as [|[env m] calls IH]; intros this; simpl;
    [done|].
  unfold create_seeds. simpl.
  destruct (exec env m this) as [[r|msg] this'] eqn:Hexec.
  - rewrite fmap_app. intros [Hhere|Hlater]%elem_of_app.
    + destruct (is_create m) eqn:Hm; [|by apply elem_of_nil in Hhere].
      destruct m; try done.
      apply exec_create in Hexec as (p & -> & Hid). simpl in Hhere.
      apply list_elem_of_singleton in Hhere as ->. rewrite Hid. by left.
    + apply IH in Hlater. destruct (is_create m); [right|]; exact Hlater.
  - intros Hlater%IH. destruct (is_create m); [right|]; exact Hlater.
Qed.

(** C4 (as amended): the id of a created post is the random seed the host
    gave to the call.  Over any history of calls in which the seeds of the
    creations are pairwise distinct and none is the key of a post stored at the
    start, the created posts have pairwise distinct ids and no creation
    replaces a stored post. *)
Theorem fresh_seeds_unique_ids (calls : history) (this : BlogContract.t) :
  NoDup (create_seeds calls) →
  (∀ seed, seed ∈ create_seeds calls →
           seed ∉ UnorderedMap.keys (blog_posts this)) →
  NoDup (BlogPost.id <$> created calls this) ∧ overwritten calls this = [].
Proof.
  revert this. induction calls as [|[env m] calls IH]; intros this Hnodup Hfresh;
    simpl.
  { split; [constructor | done]. }
  assert (Htail : NoDup (create_seeds calls)).
  { unfold create_seeds in *. simpl in Hnodup.
    destruct (is_create m); [by apply NoDup_cons in Hnodup as [_ ?] | done]. }
  assert (Hfresh_tail : ∀ seed, seed ∈ create_seeds calls →
            seed ∉ UnorderedMap.keys (blog_posts this)).
  { intros seed Hseed. apply Hfresh. unfold create_seeds in *. simpl.
    destruct (is_create m); [by right | done]. }
  destruct (exec env m this) as [[r|msg] this'] eqn:Hexec; [|by apply IH].
  assert (Hfresh' : ∀ seed, seed ∈ create_seeds calls →
            seed ∉ UnorderedMap.keys (blog_posts this')).
  { intros seed Hseed Hin.
    destruct (exec_keys _ _ _ _ _ _ Hexec Hin) as [Hold|[Hm ->]].
    - by apply (Hfresh_tail seed).
    - unfold create_seeds in Hnodup. simpl in Hnodup. rewrite Hm in Hnodup.
      simpl in Hnodup. apply NoDup_cons in Hnodup as [Hnot _]. by apply Hnot. }
  destruct (IH this' Htail Hfresh') as [IHids IHover].
  destruct (is_create m) eqn:Hm; simpl; [|by split].
  destruct m; try done.
  pose proof Hexec as (p & -> & Hid)%exec_create.
  assert (Hseed : near.randomSeed env ∈ create_seeds
            ((env, CreateBlogPost title ipfs_cid thumnbnail_cid) :: calls)).
  { unfold create_seeds. simpl. by left. }
  split.
  - simpl. rewrite Hid. apply NoDup_cons. split; [|done].
    intros Hin%created_ids_seeds.
    unfold create_seeds in Hnodup. simpl in Hnodup.
    apply NoDup_cons in Hnodup as [Hnot _]. by apply Hnot.
  - apply Hfresh, get_None_keys in Hseed. rewrite Hseed.
    rewrite bool_decide_eq_false_2 by (by intros [? ?]). done.
Qed.

Lemma fresh_seeds_unique_ids_witness :
  NoDup (BlogPost.id <$> created five_creates registry0)
  ∧ overwritten five_creates registry0 = [].
Proof.
  apply fresh_seeds_unique_ids.
  - apply (bool_decide_unpack _). reflexivity.
  - intros seed _. apply not_elem_of_nil.
Defined.

(** C4 (as stated) fails: the host gives the same random seed to two
    creations; both posts get that id and the second replaces the first in the
    collection. *)
Lemma unique_ids_counterexample :
  BlogPost.id <$> created same_seed_creates registry0 = ["seed"; "seed"]
  ∧ overwritten same_seed_creates registry0 = ["seed"]
  ∧ (BlogPost.title <$> (blog_posts (run same_seed_creates registry0)).*2)
    = ["second"]
  ∧ ¬ unique_ids_claim.
Proof.
  split; [reflexivity|]. split; [reflexivity|]. split; [reflexivity|].
  intros Hclaim.
  destruct (Hclaim same_seed_creates registry0 eq_refl) as [_ Hover].
  discriminate Hover.
Qed.

(** * Further properties *)

(** ** Sets and maps of the SDK *)

Lemma elem_of_set (s : UnorderedSet.t) (x y : AccountId) :
  y ∈ UnorderedSet.set s x ↔ y ∈ s ∨ y = x.
Proof.
  unfold UnorderedSet.set.
  destruct (UnorderedSet.contains s x) eqn:Hc.
  - apply contains_elem_of in Hc. split; [by left | by intros [?| ->]].
  - rewrite elem_of_app, list_elem_of_singleton. done.
Qed.

Lemma NoDup_set (s : UnorderedSet.t) (x : AccountId) :
  NoDup s → NoDup (UnorderedSet.set s x).
Proof.
  intros Hs. unfold UnorderedSet.set.
  destruct (UnorderedSet.contains s x) eqn:Hc; [done|].
  apply contains_not_elem_of in Hc. apply NoDup_app. split; [done|].
  split; [|apply NoDup_singleton].
  intros y Hy ->%list_elem_of_singleton. done.
Qed.

Lemma elem_of_extend (xs : list AccountId) (s : UnorderedSet.t) (y : AccountId) :
  y ∈ UnorderedSet.extend s xs ↔ y ∈ s ∨ y ∈ xs.
Proof.
  unfold UnorderedSet.extend. revert s.
  induction xs as [|x xs IH]; intros s; simpl.
  - split; [by left | intros [?|Hin]; [done | by apply elem_of_nil in Hin]].
  - rewrite IH, elem_of_set, elem_of_cons. tauto.
Qed.

Lemma NoDup_extend (xs : list AccountId) (s : UnorderedSet.t) :
  NoDup s → NoDup (UnorderedSet.extend s xs).
Proof.
  unfold UnorderedSet.extend. revert s.
  induction xs as [|x xs IH]; intros s Hs; simpl; [done|].
  by apply IH, NoDup_set.
Qed.

Lemma extend_members (xs : list AccountId) (s : UnorderedSet.t) :
  (∀ x, x ∈ xs → x ∈ s) → UnorderedSet.extend s xs = s.
Proof.
  unfold UnorderedSet.extend.
  induction xs as [|x xs IH]; intros Hall; simpl; [done|].
  assert (Hx : UnorderedSet.set s x = s).
  { unfold UnorderedSet.set.
    rewrite (proj2 (contains_elem_of s x)); [done|]. apply Hall. by left. }
  rewrite Hx. apply IH. intros y Hy. apply Hall. by right.
Qed.

Lemma swap_remove_Permutation {A} (l : list A) (i : nat) (x : A) :
  l !! i = Some x → l ≡ₚ x :: swap_remove l i.
Proof.
  intros Hi. pose proof (lookup_lt_Some _ _ _ Hi) as Hlt.
  unfold swap_remove. destruct (last l) as [z|] eqn:Hlast.
  - apply last_Some in Hlast as [l' ->]. rewrite removelast_last.
    rewrite length_app in *. simpl in *.
    rewrite decide_True by done.
    destruct (decide (S i = length l' + 1)) as [Hend|Hmid].
    + rewrite lookup_app_r in Hi by lia.
      replace (i - length l') with 0 in Hi by lia. simpl in Hi.
      injection Hi as ->. by rewrite Permutation_app_comm.
    + rewrite lookup_app_l in Hi by lia.
      rewrite insert_take_drop by lia.
      rewrite <- (take_drop_middle l' i x Hi) at 1.
      solve_Permutation.
  - apply last_None in Hlast as ->. done.
Qed.

Lemma set_index_of_lookup (s : UnorderedSet.t) (x : AccountId) (i : nat) :
  UnorderedSet.index_of s x = Some i → s !! i = Some x.
Proof.
  revert i. induction s as [|y s IH]; intros i; simpl; [done|].
  destruct (decide (y = x)) as [->|Hne]; [by intros [= <-]|].
  destruct (UnorderedSet.index_of s x) as [j|]; simpl; [|done].
  intros [= <-]. by apply IH.
Qed.

Lemma set_index_of_None (s : UnorderedSet.t) (x : AccountId) :
  UnorderedSet.index_of s x = None ↔ x ∉ s.
Proof.
  induction s as [|y s IH]; simpl.
  - split; [intros _; apply not_elem_of_nil | done].
  - rewrite not_elem_of_cons. destruct (decide (y = x)) as [->|Hne].
    + split; [done | by intros [? _]].
    + rewrite <- IH. destruct (UnorderedSet.index_of s x); simpl;
        split; try done; by intros [_ ?].
Qed.

Lemma remove_Permutation (s : UnorderedSet.t) (x : AccountId) :
  x ∈ s → s ≡ₚ x :: UnorderedSet.remove s x.
Proof.
  intros Hin. unfold UnorderedSet.remove.
  destruct (UnorderedSet.index_of s x) as [i|] eqn:Hidx.
  - by apply swap_remove_Permutation, set_index_of_lookup.
  - by apply set_index_of_None in Hidx.
Qed.

Lemma remove_absent (s : UnorderedSet.t) (x : AccountId) :
  x ∉ s → UnorderedSet.remove s x = s.
Proof.
  intros Hnot. unfold UnorderedSet.remove.
  by rewrite (proj2 (set_index_of_None s x) Hnot).
Qed.

Lemma NoDup_remove (s : UnorderedSet.t) (x : AccountId) :
  NoDup s → NoDup (UnorderedSet.remove s x).
Proof.
  intros Hs. destruct (decide (x ∈ s)) as [Hin|Hnot].
  - rewrite (remove_Permutation s x Hin) in Hs.
    by apply NoDup_cons in Hs as [_ ?].
  - by rewrite remove_absent.
Qed.

Lemma elem_of_remove (s : UnorderedSet.t) (x y : AccountId) :
  NoDup s → y ∈ UnorderedSet.remove s x ↔ y ∈ s ∧ y ≠ x.
Proof.
  intros Hs. destruct (decide (x ∈ s)) as [Hin|Hnot].
  - pose proof (remove_Permutation s x Hin) as Hperm.
    rewrite Hperm in Hs. apply NoDup_cons in Hs as [Hx _].
    rewrite Hperm at 2. rewrite elem_of_cons. split.
    + intros Hy. split; [by right | by intros ->].
    + by intros [[->|?] ?].
  - rewrite remove_absent by done. split; [|by intros [? _]].
    intros Hy. split; [done | by intros ->].
Qed.

Lemma foldl_remove (xs : list AccountId) (s : UnorderedSet.t) :
  NoDup s →
  NoDup (foldl UnorderedSet.remove s xs)
  ∧ ∀ y, y ∈ foldl UnorderedSet.remove s xs ↔ y ∈ s ∧ y ∉ xs.
Proof.
  revert s. induction xs as [|x xs IH]; intros s Hs; simpl.
  - split; [done|]. intros y. split; [|by intros [? _]].
    intros Hy. split; [done | apply not_elem_of_nil].
  - destruct (IH _ (NoDup_remove s x Hs)) as [Hnd Hmem]. split; [done|].
    intros y. rewrite Hmem, elem_of_remove, not_elem_of_cons by done.
    tauto.
Qed.

Section MapShape.

Context {V : Type}.
Implicit Types (m : UnorderedMap.t V) (k : string) (v : V).

Lemma get_Some_elem_of m k v : UnorderedMap.get m k = Some v → (k, v) ∈ m.
Proof.
  induction m as [|[k0 v0] m IH]; simpl; [done|].
  destruct (decide (k0 = k)) as [->|Hne].
  - intros [= ->]. by left.
  - intros Hget. right. by apply IH.
Qed.

Lemma get_elem_of m k v :
  NoDup (UnorderedMap.keys m) → UnorderedMap.get m k = Some v ↔ (k, v) ∈ m.
Proof.
  unfold UnorderedMap.keys. intros Hnd. split; [apply get_Some_elem_of|].
  induction m as [|[k0 v0] m IH]; simpl in *.
  - by intros ?%elem_of_nil.
  - apply NoDup_cons in Hnd as [Hk0 Hnd].
    intros [[= -> ->]|Hin]%elem_of_cons.
    + by rewrite decide_True.
    + destruct (decide (k0 = k)) as [->|Hne]; [|by apply IH].
      destruct Hk0. apply list_elem_of_fmap. by exists (k, v).
Qed.

Lemma map_index_of_lookup m k v (i : nat) :
  UnorderedMap.index_of m k = Some i → UnorderedMap.get m k = Some v →
  m !! i = Some (k, v).
Proof.
  revert i. induction m as [|[k0 v0] m IH]; intros i; simpl; [done|].
  destruct (decide (k0 = k)) as [->|Hne]; [by intros [= <-] [= ->]|].
  destruct (UnorderedMap.index_of m k) as [j|]; simpl; [|done].
  intros [= <-] Hget. by apply IH.
Qed.

Lemma map_index_of_is_Some m k v :
  UnorderedMap.get m k = Some v → is_Some (UnorderedMap.index_of m k).
Proof.
  induction m as [|[k0 v0] m IH]; simpl; [done|].
  destruct (decide (k0 = k)) as [->|Hne]; [by eauto|].
  intros [j Hj]%IH. rewrite Hj. by eauto.
Qed.

Lemma map_index_of_None m k :
  UnorderedMap.get m k = None → UnorderedMap.index_of m k = None.
Proof.
  induction m as [|[k0 v0] m IH]; simpl; [done|].
  destruct (decide (k0 = k)) as [->|Hne]; [done|].
  intros ->%IH. done.
Qed.

Lemma map_remove_Permutation m k v :
  UnorderedMap.get m k = Some v → m ≡ₚ (k, v) :: UnorderedMap.remove m k.
Proof.
  intros Hget. unfold UnorderedMap.remove.
  destruct (map_index_of_is_Some _ _ _ Hget) as [i Hi]. rewrite Hi.
  apply swap_remove_Permutation. by apply map_index_of_lookup.
Qed.

Lemma map_remove_absent m k :
  UnorderedMap.get m k = None → UnorderedMap.remove m k = m.
Proof.
  intros Hget. unfold UnorderedMap.remove.
  by rewrite (map_index_of_None _ _ Hget).
Qed.

Lemma NoDup_keys_remove m k :
  NoDup (UnorderedMap.keys m) → NoDup (UnorderedMap.keys (UnorderedMap.remove m k)).
Proof.
  intros Hnd. destruct (UnorderedMap.get m k) as [v|] eqn:Hget.
  - unfold UnorderedMap.keys in *.
    rewrite (map_remove_Permutation m k v Hget) in Hnd. simpl in Hnd.
    by apply NoDup_cons in Hnd as [_ ?].
  - by rewrite map_remove_absent.
Qed.

Lemma get_remove_eq m k :
  NoDup (UnorderedMap.keys m) → UnorderedMap.get (UnorderedMap.remove m k) k = None.
Proof.
  intros Hnd. apply get_None_keys.
  destruct (UnorderedMap.get m k) as [v|] eqn:Hget.
  - unfold UnorderedMap.keys in *.
    rewrite (map_remove_Permutation m k v Hget) in Hnd. simpl in Hnd.
    by apply NoDup_cons in Hnd as [? _].
  - rewrite map_remove_absent by done. by apply get_None_keys.
Qed.

Lemma get_remove_ne m k k' :
  NoDup (UnorderedMap.keys m) → k' ≠ k →
  UnorderedMap.get (UnorderedMap.remove m k) k' = UnorderedMap.get m k'.
Proof.
  intros Hnd Hne. destruct (UnorderedMap.get m k) as [v|] eqn:Hget;
    [|by rewrite map_remove_absent].
  pose proof (map_remove_Permutation m k v Hget) as Hperm.
  apply option_eq. intros v'.
  rewrite !get_elem_of by (done || by apply NoDup_keys_remove).
  rewrite Hperm at 2. rewrite elem_of_cons. split; [by right|].
  intros [[= ? _]|?]; done.
Qed.

Lemma length_remove m k v :
  UnorderedMap.get m k = Some v →
  length m = S (length (UnorderedMap.remove m k)).
Proof. intros Hget. by rewrite (map_remove_Permutation m k v Hget) at 1. Qed.

Lemma NoDup_keys_set m k v :
  NoDup (UnorderedMap.keys m) → NoDup (UnorderedMap.keys (UnorderedMap.set m k v)).
Proof.
  intros Hnd. destruct (UnorderedMap.get m k) as [w|] eqn:Hget.
  - rewrite keys_set_present by eauto. done.
  - rewrite (set_absent _ _ _ Hget). unfold UnorderedMap.keys in *.
    rewrite fmap_app. simpl. apply NoDup_app. split; [done|].
    split; [|apply NoDup_singleton].
    intros k' Hk' ->%list_elem_of_singleton.
    by apply get_None_keys in Hget.
Qed.

Lemma elem_of_map_set m k v k' v' :
  (k', v') ∈ UnorderedMap.set m k v → (k', v') = (k, v) ∨ (k', v') ∈ m.
Proof.
  induction m as [|[k0 v0] m IH]; simpl.
  - intros ?%list_elem_of_singleton. by left.
  - destruct (decide (k0 = k)) as [->|Hne].
    + intros [?|?]%elem_of_cons; [by left | right; by right].
    + intros [->|Hin]%elem_of_cons; [right; by left|].
      destruct (IH Hin); [by left | right; by right].
Qed.

End MapShape.

(** ** Moderators *)

Lemma may_moderate_true env (this : BlogContract.t) :
  may_moderate env this = true
  ↔ near.signerAccountId env = near.currentAccountId env
    ∨ near.signerAccountId env ∈ moderators this.
Proof.
  unfold may_moderate.
  by rewrite orb_true_iff, bool_decide_eq_true, contains_elem_of.
Qed.

Lemma deny_check_passes (this : BlogContract.t) (accounts : list AccountId) :
  forallb (λ account, negb (UnorderedSet.contains (denylist this) account))
          accounts = true
  ↔ ∀ a, a ∈ accounts → a ∉ denylist this.
Proof.
  rewrite forallb_forall. split; intros Hall a Ha.
  - apply list_elem_of_In in Ha. specialize (Hall a Ha).
    apply negb_true_iff in Hall. by apply contains_not_elem_of.
  - apply negb_true_iff, contains_not_elem_of, Hall. by apply list_elem_of_In.
Qed.

(** X1: [add_moderators] succeeds exactly when one yoctoNEAR is attached, the
    signer is not denylisted, the signer is the contract account or a
    moderator, and no target is denylisted.  It then makes every target a
    moderator, keeps the moderators there were, adds nobody else, keeps the set
    free of duplicates and leaves the other three collections alone. *)
Theorem add_moderators_effect env (accounts : list AccountId)
    (this : BlogContract.t) :
  (is_ok (add_moderators env accounts this).1 = true
   ↔ near.attachedDeposit env = 1%Z
     ∧ (near.signerAccountId env ∉ denylist this)
     ∧ (near.signerAccountId env = near.currentAccountId env
        ∨ near.signerAccountId env ∈ moderators this)
     ∧ ∀ a, a ∈ accounts → a ∉ denylist this)
  ∧ (∀ this',
       add_moderators env accounts this = (Ok tt, this') →
       (∀ a, a ∈ moderators this' ↔ a ∈ moderators this ∨ a ∈ accounts)
       ∧ (NoDup (moderators this) → NoDup (moderators this'))
       ∧ authors this' = authors this
       ∧ denylist this' = denylist this
       ∧ blog_posts this' = blog_posts this).
Proof.
  rewrite add_moderators_unfold. split.
  - rewrite <- may_moderate_true, <- deny_check_passes, <- contains_not_elem_of.
    destruct (bool_decide (near.attachedDeposit env = 1%Z)) eqn:Hdep.
    + apply bool_decide_eq_true in Hdep.
      destruct (UnorderedSet.contains (denylist this) _),
        (may_moderate env this), (forallb _ accounts); simpl;
        split; try done; intros (? & ? & ? & ?); done.
    + apply bool_decide_eq_false in Hdep. simpl.
      split; [done | by intros (? & _)].
  - intros this'. repeat case_match; try done. intros [= <-]. simpl.
    split; [intros a; apply elem_of_extend|].
    split; [apply NoDup_extend | done].
Qed.

Lemma add_moderators_effect_witness :
  is_ok (add_moderators (env_of "mod.near" 1 "seed") ["carol"; "dave"]
           registry0).1 = true.
Proof.
  apply (proj1 (add_moderators_effect (env_of "mod.near" 1 "seed")
                  ["carol"; "dave"] registry0)).
  split; [reflexivity|].
  split; [apply contains_not_elem_of; reflexivity|].
  split; [right; apply contains_elem_of; reflexivity|].
  intros a Ha. apply contains_not_elem_of.
  apply elem_of_cons in Ha as [->|Ha]; [reflexivity|].
  apply list_elem_of_singleton in Ha as ->. reflexivity.
Defined.

(** X2: [add_moderators] is idempotent: repeating a call that succeeded, from
    the state it produced, succeeds again and changes nothing. *)
Theorem add_moderators_idempotent env (accounts : list AccountId)
    (this this1 : BlogContract.t) :
  add_moderators env accounts this = (Ok tt, this1) →
  add_moderators env accounts this1 = (Ok tt, this1).
Proof.
  rewrite !add_moderators_unfold.
  destruct (bool_decide (near.attachedDeposit env = 1%Z)); [|done].
  destruct (UnorderedSet.contains (denylist this) _) eqn:Hdeny; [done|].
  destruct (may_moderate env this) eqn:Hmay; [|done].
  destruct (forallb _ accounts) eqn:Hchk; [|done].
  intros [= <-]. simpl. rewrite Hdeny, Hchk.
  assert (Hmay' : may_moderate env
            (with_moderators this
               (UnorderedSet.extend (moderators this) accounts)) = true).
  { apply may_moderate_true. apply may_moderate_true in Hmay as [?|?];
      [by left | right]. simpl. apply elem_of_extend. by left. }
  rewrite Hmay'. simpl.
  rewrite (extend_members accounts
             (UnorderedSet.extend (moderators this) accounts)); [done|].
  intros a Ha. apply elem_of_extend. by right.
Qed.

Lemma add_moderators_idempotent_witness :
  add_moderators (env_of "blog.near" 1 "seed") ["carol"; "carol"]
    (with_moderators registry0 ["mod.near"; "carol"])
  = (Ok tt, with_moderators registry0 ["mod.near"; "carol"]).
Proof.
  apply (add_moderators_idempotent _ _ registry0). reflexivity.
Defined.

(** X3: [remove_moderators] succeeds exactly when one yoctoNEAR is attached
    and the signer is the contract account or a moderator; the denylist is not
    consulted.  On a set without duplicates it then removes every target,
    keeps every other moderator, and leaves the other collections alone. *)
Theorem remove_moderators_effect env (accounts : list AccountId)
    (this : BlogContract.t) :
  (is_ok (remove_moderators env accounts this).1 = true
   ↔ near.attachedDeposit env = 1%Z
     ∧ (near.signerAccountId env = near.currentAccountId env
        ∨ near.signerAccountId env ∈ moderators this))
  ∧ (∀ this',
       remove_moderators env accounts this = (Ok tt, this') →
       NoDup (moderators this) →
       (∀ a, a ∈ moderators this' ↔ a ∈ moderators this ∧ a ∉ accounts)
       ∧ NoDup (moderators this')
       ∧ authors this' = authors this
       ∧ denylist this' = denylist this
       ∧ blog_posts this' = blog_posts this).
Proof.
  rewrite remove_moderators_unfold. split.
  - rewrite <- may_moderate_true.
    destruct (bool_decide (near.attachedDeposit env = 1%Z)) eqn:Hdep.
    + apply bool_decide_eq_true in Hdep.
      destruct (may_moderate env this); simpl; split; try done.
      by intros [_ ?].
    + apply bool_decide_eq_false in Hdep. simpl.
      split; [done | by intros [? _]].
  - intros this'. repeat case_match; try done. intros [= <-] Hnd. simpl.
    destruct (foldl_remove accounts (moderators this) Hnd) as [Hnd' Hmem].
    done.
Qed.

Lemma remove_moderators_effect_witness :
  (∀ a, a ∈ ["carol"] ↔ a ∈ ["mod.near"; "carol"] ∧ a ∉ ["mod.near"])
  ∧ NoDup ["carol"].
Proof.
  destruct (proj2 (remove_moderators_effect (env_of "mod.near" 1 "seed")
                     ["mod.near"]
                     (with_moderators registry2 ["mod.near"; "carol"]))
              (with_moderators registry2 ["carol"]) eq_refl)
    as (Hmem & Hnd & _).
  - apply (bool_decide_unpack _). reflexivity.
  - split; [exact Hmem | exact Hnd].
Defined.

(** X4: moderation needs permission.  A signer that is neither the contract
    account nor a moderator has [remove_moderators] rejected with the
    permission error, and [add_moderators] too unless it is denylisted (then
    the denylist error comes first).  A moderator other than the contract
    account that removes itself is in that position afterwards. *)
Theorem moderation_needs_permission env (this : BlogContract.t) :
  near.attachedDeposit env = 1%Z →
  near.signerAccountId env ≠ near.currentAccountId env →
  (near.signerAccountId env ∉ moderators this →
   ∀ accounts,
     remove_moderators env accounts this = (Panic ERR_PERMISSION, this)
     ∧ (near.signerAccountId env ∉ denylist this →
        add_moderators env accounts this = (Panic ERR_PERMISSION, this)))
  ∧ (∀ accounts this',
       NoDup (moderators this) →
       near.signerAccountId env ∈ accounts →
       remove_moderators env accounts this = (Ok tt, this') →
       ∀ again, remove_moderators env again this'
                = (Panic ERR_PERMISSION, this')).
Proof.
  intros Hdep%(bool_decide_eq_true_2 _) Hcur.
  assert (Hno : ∀ that, near.signerAccountId env ∉ moderators that →
                        may_moderate env that = false).
  { intros that Hnot. apply not_true_is_false.
    intros [?|?]%may_moderate_true; done. }
  split.
  - intros Hnot accounts.
    rewrite remove_moderators_unfold, add_moderators_unfold, Hdep, (Hno _ Hnot).
    split; [done|]. intros Hdeny%contains_not_elem_of. by rewrite Hdeny.
  - intros accounts this' Hnd Hself Hok again.
    rewrite remove_moderators_unfold, Hdep in Hok.
    destruct (may_moderate env this); [|done]. injection Hok as <-.
    destruct (foldl_remove accounts (moderators this) Hnd) as [_ Hmem].
    rewrite remove_moderators_unfold, Hdep, Hno; [done|].
    simpl. intros [_ Hin]%Hmem. done.
Qed.

Lemma moderation_needs_permission_witness :
  remove_moderators (env_of "eve" 1 "seed") ["mod.near"] registry0
  = (Panic ERR_PERMISSION, registry0)
  ∧ add_moderators (env_of "eve" 1 "seed") ["eve"] registry0
    = (Panic ERR_PERMISSION, registry0).
Proof.
  assert (Hnot : "eve" ∉ moderators registry0).
  { apply contains_not_elem_of. reflexivity. }
  destruct (moderation_needs_permission (env_of "eve" 1 "seed") registry0)
    as [Hstranger _]; [reflexivity | discriminate |].
  destruct (Hstranger Hnot ["mod.near"]) as [Hremove _].
  destruct (Hstranger Hnot ["eve"]) as [_ Hadd].
  split; [exact Hremove|].
  apply Hadd. apply contains_not_elem_of. reflexivity.
Defined.

(** ** Creating and removing posts *)

Lemma is_valid_Date_of_bigint (t : Z) :
  is_valid (Date_of_bigint t) = true ↔ (Z.abs t ≤ MAX_TIME_VALUE)%Z.
Proof.
  unfold Date_of_bigint.
  destruct (Z.leb_spec (Z.abs t) MAX_TIME_VALUE); simpl; split; try done. lia.
Qed.

(** X5: [create_blog_post] succeeds exactly when the signer is a registered
    author and the block timestamp makes a valid date, that is, is at most
    8.64e15 in absolute value; neither a deposit nor the denylist matters.
    The post returned has the given title and references, the random seed as
    id, the signer as author and the block timestamp as the time value of
    both dates; it is what [get_blog_post] then returns for that id.  Posts
    under other ids and the three sets are untouched; with an unused seed the
    post is appended after the existing ones. *)
Theorem create_blog_post_effect env (title ipfs_cid thumnbnail_cid : string)
    (this : BlogContract.t) :
  (is_ok (create_blog_post env title ipfs_cid thumnbnail_cid this).1 = true
   ↔ near.signerAccountId env ∈ authors this
     ∧ (Z.abs (near.blockTimestamp env) ≤ MAX_TIME_VALUE)%Z)
  ∧ (∀ blogPost this',
       create_blog_post env title ipfs_cid thumnbnail_cid this
       = (Ok blogPost, this') →
       blogPost
       = {| BlogPost.title := title;
            BlogPost.ipfs_cid := ipfs_cid;
            BlogPost.thumnbnail_cid := thumnbnail_cid;
            BlogPost.id := near.randomSeed env;
            BlogPost.author_id := near.signerAccountId env;
            BlogPost.created_at := TimeValue (near.blockTimestamp env);
            BlogPost.last_updated_at := TimeValue (near.blockTimestamp env) |}
       ∧ get_blog_post (near.randomSeed env) this' = Some blogPost
       ∧ (∀ other, other ≠ near.randomSeed env →
                   get_blog_post other this' = get_blog_post other this)
       ∧ (get_blog_post (near.randomSeed env) this = None →
          blog_posts this'
          = blog_posts this ++ [(near.randomSeed env, blogPost)])
       ∧ moderators this' = moderators this
       ∧ authors this' = authors this
       ∧ denylist this' = denylist this).
Proof.
  rewrite create_blog_post_unfold. split.
  - rewrite <- contains_elem_of, <- is_valid_Date_of_bigint.
    destruct (UnorderedSet.contains (authors this) _),
      (is_valid (Date_of_bigint (near.blockTimestamp env))); simpl;
      split; try done; by intros [? ?].
  - intros blogPost this'.
    destruct (UnorderedSet.contains (authors this) _); [|done].
    destruct (is_valid (Date_of_bigint (near.blockTimestamp env))) eqn:Hvalid;
      [|done].
    assert (Hdate : Date_of_bigint (near.blockTimestamp env)
                    = TimeValue (near.blockTimestamp env)).
    { unfold Date_of_bigint in *. by destruct (_ <=? _)%Z. }
    intros [= <- <-]. unfold get_blog_post, BlogPost.new. simpl.
    rewrite Hdate.
    split; [done|]. split; [by rewrite get_set_eq|].
    split; [by intros other Hother; rewrite get_set_ne|].
    split; [|done].
    intros Hnone. apply set_absent.
    by destruct (UnorderedMap.get (blog_posts this) (near.randomSeed env)).
Qed.

Lemma create_blog_post_effect_witness :
  is_ok (create_blog_post (env_of "alice" 0 "p2") "again" "c" "t" registry2).1
  = true.
Proof.
  apply (proj1 (create_blog_post_effect (env_of "alice" 0 "p2") "again" "c" "t"
                  registry2)).
  split; [apply contains_elem_of; reflexivity | vm_compute; discriminate].
Defined.

(** X6: [remove_blog_post] by a registered author on a post of theirs, with no
    deposit attached, returns the stored post and deletes it: in a collection without duplicate
    keys [get_blog_post] no longer finds the id, every other post is still
    found unchanged, there is one post less, and the three sets are
    untouched. *)
Theorem remove_blog_post_effect env (this : BlogContract.t) blog_id blogPost :
  near.attachedDeposit env = 0%Z →
  owns env this blog_id blogPost →
  NoDup (UnorderedMap.keys (blog_posts this)) →
  ∃ this',
    remove_blog_post env blog_id this = (Ok (Some blogPost), this')
    ∧ get_blog_post blog_id this' = None
    ∧ (∀ other, other ≠ blog_id →
                get_blog_post other this' = get_blog_post other this)
    ∧ length (blog_posts this) = S (length (blog_posts this'))
    ∧ moderators this' = moderators this
    ∧ authors this' = authors this
    ∧ denylist this' = denylist this.
Proof.
  intros Hdep Howns Hnd.
  destruct (owns_tests _ _ _ _ Howns) as [Hauthor Hown].
  destruct Howns as (_ & Hget & _).
  eexists. rewrite remove_blog_post_unfold, Hdep, Hauthor, Hget, Hown.
  split; [done|]. unfold get_blog_post. simpl.
  split; [by rewrite get_remove_eq|].
  split; [by intros other Hother; rewrite get_remove_ne|].
  split; [by apply (length_remove _ _ blogPost) | done].
Qed.

Lemma remove_blog_post_effect_witness :
  ∃ this',
    remove_blog_post (env_of "alice" 0 "seed") "p3" registry5
    = (Ok (Some (BlogPost.new (env_of "alice" 1 "p3") "three" "c3" "t3"
                   None None None None)), this')
    ∧ get_blog_post "p3" this' = None
    ∧ (∀ other, other ≠ "p3" →
                get_blog_post other this' = get_blog_post other registry5)
    ∧ length (blog_posts registry5) = S (length (blog_posts this'))
    ∧ moderators this' = moderators registry5
    ∧ authors this' = authors registry5
    ∧ denylist this' = denylist registry5.
Proof.
  apply remove_blog_post_effect.
  - reflexivity.
  - repeat split. apply contains_elem_of. reflexivity.
  - apply (bool_decide_unpack _). reflexivity.
Defined.

(** X7: a registered author acting on a post that is missing or not theirs is
    rejected and nothing changes.  A missing id gives the not-found error from
    [update_blog_post], and from [remove_blog_post] called without a deposit.
    On somebody else's post [remove_blog_post], called without a deposit,
    gives its own permission error, and [update_blog_post] gives the
    permission error of the post whenever the patch does not name a
    denylisted new author. *)
Theorem foreign_post_rejected env (this : BlogContract.t) blog_id :
  near.signerAccountId env ∈ authors this →
  (get_blog_post blog_id this = None →
   (near.attachedDeposit env = 0%Z →
    remove_blog_post env blog_id this = (Panic ERR_NOT_FOUND, this))
   ∧ ∀ update_blog,
       update_blog_post env blog_id update_blog this
       = (Panic ERR_NOT_FOUND, this))
  ∧ (∀ blogPost,
       get_blog_post blog_id this = Some blogPost →
       near.signerAccountId env ≠ BlogPost.author_id blogPost →
       (near.attachedDeposit env = 0%Z →
        remove_blog_post env blog_id this = (Panic ERR_NOT_OWNER, this))
       ∧ ∀ update_blog,
           target_allowed this update_blog →
           update_blog_post env blog_id update_blog this
           = (Panic BlogPost.ERR_PERMISSION, this)).
Proof.
  intros Hauthor%contains_elem_of. unfold get_blog_post. split.
  - intros Hnone.
    assert (Hget : UnorderedMap.get (blog_posts this) blog_id = None)
      by (by destruct (UnorderedMap.get (blog_posts this) blog_id)).
    split; [by intros Hdep; rewrite remove_blog_post_unfold, Hdep, Hauthor, Hget|].
    intros update_blog. by rewrite update_blog_post_unfold, Hauthor, Hget.
  - intros blogPost Hsome Hne.
    destruct (UnorderedMap.get (blog_posts this) blog_id) as [p|] eqn:Hget;
      [|done].
    simpl in Hsome. rewrite reconstruct_id in Hsome. injection Hsome as ->.
    apply (bool_decide_eq_false_2 _) in Hne. split.
    + intros Hdep. by rewrite remove_blog_post_unfold, Hdep, Hauthor, Hget, Hne.
    + intros update_blog Hallowed.
      rewrite update_blog_post_unfold, Hauthor, Hget.
      by rewrite (target_allowed_test env _ _ Hallowed), Hne.
Qed.

Lemma foreign_post_rejected_witness :
  remove_blog_post (env_of "bob" 0 "seed") "p1" registry4
  = (Panic ERR_NOT_OWNER, registry4)
  ∧ update_blog_post (env_of "bob" 0 "seed") "p1" [("title", "mine")] registry4
    = (Panic BlogPost.ERR_PERMISSION, registry4)
  ∧ remove_blog_post (env_of "bob" 0 "seed") "nope" registry4
    = (Panic ERR_NOT_FOUND, registry4).
Proof.
  assert (Hbob : near.signerAccountId (env_of "bob" 0 "seed") ∈ authors registry4).
  { apply contains_elem_of. reflexivity. }
  destruct (foreign_post_rejected (env_of "bob" 0 "seed") registry4 "p1" Hbob)
    as [_ Hforeign].
  destruct (foreign_post_rejected (env_of "bob" 0 "seed") registry4 "nope" Hbob)
    as [Hmissing _].
  destruct (Hforeign (post_of "p1" "hello" "alice") eq_refl) as [Hremove Hupdate];
    [discriminate|].
  split; [by apply Hremove|]. split.
  - apply Hupdate. intros a Ha. discriminate Ha.
  - by apply Hmissing.
Defined.

(** ** More on pagination *)

Section SliceMore.

Context {A : Type}.
Implicit Types (l : list A).

Lemma elem_of_js_slice l (start_ end_ : Z) (x : A) :
  x ∈ js_slice l start_ end_ → x ∈ l.
Proof.
  unfold js_slice. intros Hx.
  eapply elem_of_sublist; [exact Hx|].
  etrans; [apply sublist_take | apply sublist_drop].
Qed.

Lemma length_js_slice l (from limit : Z) :
  (0 ≤ from)%Z → (0 ≤ limit)%Z →
  (length (js_slice l from (from + limit)) ≤ Z.to_nat limit)%nat.
Proof.
  intros Hfrom Hlimit. unfold js_slice.
  destruct (Z.ltb_spec from 0) as [?|_]; [lia|].
  destruct (Z.ltb_spec (from + limit) 0) as [?|_]; [lia|].
  rewrite length_take. lia.
Qed.

Lemma js_slice_tile l (from limit1 limit2 : nat) :
  js_slice l (Z.of_nat from) (Z.of_nat from + Z.of_nat limit1)
  ++ js_slice l (Z.of_nat (from + limit1))
       (Z.of_nat (from + limit1) + Z.of_nat limit2)
  = js_slice l (Z.of_nat from) (Z.of_nat from + Z.of_nat (limit1 + limit2)).
Proof.
  rewrite !js_slice_page. unfold page.
  rewrite <- (drop_drop l limit1 from). apply take_take_drop.
Qed.

Lemma js_slice_all l (limit : Z) :
  (Z.of_nat (length l) ≤ limit)%Z → js_slice l 0 (0 + limit) = l.
Proof.
  intros Hall. unfold js_slice.
  destruct (Z.ltb_spec 0 0) as [?|_]; [lia|].
  destruct (Z.ltb_spec (0 + limit) 0) as [?|_]; [lia|].
  replace (Z.to_nat (0 `min` Z.of_nat (length l))) with 0%nat by lia.
  rewrite drop_0. apply take_ge. lia.
Qed.

End SliceMore.



(** X11: consecutive pages tile the collection.  For non-negative arguments,
    the page of [limit1] items from [from] followed by the page of [limit2]
    items from [from + limit1] is the page of [limit1 + limit2] items from
    [from]: nothing is skipped and nothing repeated.  This holds for
    [get_authors] and for [get_blog_posts] with any author filter. *)
Theorem pages_tile (this : BlogContract.t) (from limit1 limit2 : nat) :
  get_authors (Some (Z.of_nat limit1)) (Some (Z.of_nat from)) this
  ++ get_authors (Some (Z.of_nat limit2)) (Some (Z.of_nat (from + limit1))) this
  = get_authors (Some (Z.of_nat (limit1 + limit2))) (Some (Z.of_nat from)) this
  ∧ ∀ author_id,
      get_blog_posts (Some (Z.of_nat limit1)) (Some (Z.of_nat from))
        author_id this
      ++ get_blog_posts (Some (Z.of_nat limit2))
           (Some (Z.of_nat (from + limit1))) author_id this
      = get_blog_posts (Some (Z.of_nat (limit1 + limit2)))
          (Some (Z.of_nat from)) author_id this.
Proof.
  unfold get_authors, get_blog_posts. simpl.
  split; [|intros author_id]; apply js_slice_tile.
Qed.

(** X12: what a page of posts holds.  Every post returned by [get_blog_posts]
    is a stored post, and has the requested author when a non-empty
    [author_id] is given; for non-negative arguments at most [limit] posts are
    returned; and one page from the start that is as long as the collection
    holds exactly the stored posts of that author. *)
Theorem get_blog_posts_contents (this : BlogContract.t) :
  (∀ limit from author_id p,
     p ∈ get_blog_posts limit from author_id this →
     p ∈ (blog_posts this).*2
     ∧ ∀ a, author_id = Some a → a ≠ "" → BlogPost.author_id p = a)
  ∧ (∀ (limit from : Z) author_id,
       (0 ≤ limit)%Z → (0 ≤ from)%Z →
       (length (get_blog_posts (Some limit) (Some from) author_id this)
        ≤ Z.to_nat limit)%nat)
  ∧ (∀ (limit : Z) a,
       a ≠ "" →
       (Z.of_nat (length (blog_posts this)) ≤ limit)%Z →
       ∀ p, p ∈ get_blog_posts (Some limit) None (Some a) this
            ↔ p ∈ (blog_posts this).*2 ∧ BlogPost.author_id p = a).
Proof.
  split; [|split].
  - intros limit from author_id p Hp. unfold get_blog_posts in Hp.
    apply elem_of_js_slice, list_elem_of_In, filter_In in Hp as [Hin Hkeep].
    apply list_elem_of_In in Hin. split; [done|].
    intros a -> Hne. simpl in Hkeep.
    rewrite (bool_decide_eq_false_2 _ Hne) in Hkeep. simpl in Hkeep.
    apply bool_decide_eq_true in Hkeep. by injection Hkeep.
  - intros limit from author_id Hlimit Hfrom. unfold get_blog_posts. simpl.
    by apply length_js_slice.
  - intros limit a Hne Hall p.
    rewrite get_blog_posts_filter by congruence. simpl.
    rewrite js_slice_all.
    + unfold posts_by. rewrite list_elem_of_In, filter_In, <- list_elem_of_In.
      by rewrite bool_decide_eq_true.
    + unfold posts_by.
      pose proof (filter_length_le
                    (λ p, bool_decide (BlogPost.author_id p = a))
                    (blog_posts this).*2) as Hle.
      rewrite length_fmap in Hle. lia.
Qed.

Lemma get_blog_posts_contents_witness :
  (length (get_blog_posts (Some 2%Z) (Some 1%Z) (Some "alice") registry5)
   ≤ Z.to_nat 2)%nat.
Proof.
  destruct (get_blog_posts_contents registry5) as (_ & Hlen & _).
  apply Hlen; lia.
Defined.

(** ** What the calls of a history keep *)

Lemma elem_of_map_remove {V} (m : UnorderedMap.t V) (key k : string) (v : V) :
  (k, v) ∈ UnorderedMap.remove m key → (k, v) ∈ m.
Proof.
  unfold UnorderedMap.remove.
  destruct (UnorderedMap.index_of m key); [apply elem_of_swap_remove | done].
Qed.

Ltac run_method :=
  unfold exec, mbind, call__bind, bind, mret, call__ret, ret;
  rewrite ?add_moderators_unfold, ?remove_moderators_unfold, ?register_unfold,
    ?create_blog_post_unfold, ?update_blog_post_unfold,
    ?remove_blog_post_unfold;
  repeat (case_match; simplify_eq/=).

Lemma exec_denylist env (m : method) this r this' :
  exec env m this = (r, this') → denylist this' = denylist this.
Proof. destruct m; run_method; by intros [= <- <-]. Qed.

Lemma exec_authors env (m : method) this r this' (a : AccountId) :
  exec env m this = (r, this') →
  a ∈ authors this' ↔
  a ∈ authors this
  ∨ (m = Register ∧ is_ok r = true ∧ a = near.signerAccountId env).
Proof.
  destruct m; run_method; intros [= <- <-]; simpl;
    try (split; [by left | by intros [?|(? & ? & ?)]]).
  rewrite elem_of_set. split; intros [?|?]; auto. right. tauto.
Qed.

Lemma exec_well_formed env (m : method) this r this' :
  exec env m this = (Ok r, this') → well_formed this → well_formed this'.
Proof.
  intros Hexec (Hmods & Hauthors & Hdeny & Hkeys & Hids).
  destruct m; revert Hexec; run_method; intros [= <- <-];
    unfold well_formed; simpl; repeat split; try done.
  - by apply NoDup_extend.
  - by apply foldl_remove.
  - by apply NoDup_set.
  - by apply NoDup_keys_set.
  - intros key p [[= -> ->]|Hin]%elem_of_map_set; [done | by apply Hids].
  - by apply NoDup_keys_remove.
  - intros key p Hin%elem_of_map_remove. by apply Hids.
Qed.

(** X13: no call changes the denylist: after any history of calls it is the
    denylist of the start. *)
Theorem denylist_never_changes (calls : history) (this : BlogContract.t) :
  denylist (run calls this) = denylist this.
Proof.
  revert this. induction calls as [|[env m] calls IH]; intros this; simpl;
    [done|].
  destruct (exec env m this) as [[r|msg] this'] eqn:Hexec; [|apply IH].
  rewrite IH. by apply exec_denylist in Hexec.
Qed.

(** X14: authors are never removed.  After any history of calls every author
    of the start is still an author, every other author signed a [register]
    call of the history, and an author of the start can still create a post,
    at a block timestamp that makes a valid date. *)
Theorem authors_only_grow (calls : history) (this : BlogContract.t) :
  (∀ a, a ∈ authors this → a ∈ authors (run calls this))
  ∧ (∀ a, a ∈ authors (run calls this) →
          a ∈ authors this ∨ a ∈ register_signers calls)
  ∧ (∀ env title ipfs_cid thumnbnail_cid,
       near.signerAccountId env ∈ authors this →
       (Z.abs (near.blockTimestamp env) ≤ MAX_TIME_VALUE)%Z →
       is_ok (create_blog_post env title ipfs_cid thumnbnail_cid
                (run calls this)).1 = true).
Proof.
  assert (Hkeep : ∀ a, a ∈ authors this → a ∈ authors (run calls this)).
  { revert this. induction calls as [|[env m] calls IH]; intros this a Ha;
      simpl; [done|].
    destruct (exec env m this) as [[r|msg] this'] eqn:Hexec; [|by apply IH].
    apply IH. apply (exec_authors _ _ _ _ _ a) in Hexec. apply Hexec. by left. }
  split; [exact Hkeep|]. split.
  - clear Hkeep. revert this. induction calls as [|[env m] calls IH];
      intros this a; simpl; [by left|].
    assert (Hlater : a ∈ register_signers calls →
                     a ∈ register_signers ((env, m) :: calls)).
    { unfold register_signers. simpl. destruct m; try done. by right. }
    destruct (exec env m this) as [[r|msg] this'] eqn:Hexec.
    + intros [Hin|?]%IH; [|by right; apply Hlater].
      apply (exec_authors _ _ _ _ _ a) in Hexec. apply Hexec in Hin.
      destruct Hin as [?|(-> & _ & ->)]; [by left|]. right. by left.
    + intros [?|?]%IH; [by left | by right; apply Hlater].
  - intros env title ipfs_cid thumnbnail_cid Hauthor%Hkeep%contains_elem_of
      Hvalid%is_valid_Date_of_bigint.
    by rewrite create_blog_post_unfold, Hauthor, Hvalid.
Qed.

Lemma authors_only_grow_witness :
  is_ok (create_blog_post (env_of "alice" 0 "p9") "late" "c" "t"
           (run five_creates registry0)).1 = true.
Proof.
  apply (proj2 (proj2 (authors_only_grow five_creates registry0))).
  - apply contains_elem_of. reflexivity.
  - vm_compute. discriminate.
Defined.

(** X15: the shape of the registry is an invariant.  If no set holds an
    account twice, no post key occurs twice and every post is stored under its
    own id, the same holds after any history of calls. *)
Theorem well_formed_preserved (calls : history) (this : BlogContract.t) :
  well_formed this → well_formed (run calls this).
Proof.
  revert this. induction calls as [|[env m] calls IH]; intros this Hwf; simpl;
    [done|].
  destruct (exec env m this) as [[r|msg] this'] eqn:Hexec; [|by apply IH].
  apply IH. by apply (exec_well_formed _ _ _ _ _ Hexec).
Qed.

Lemma well_formed_preserved_witness : well_formed registry5.
Proof.
  apply (well_formed_preserved five_creates registry0).
  repeat split; try (apply (bool_decide_unpack _); reflexivity).
  intros key p Hin. by apply elem_of_nil in Hin.
Defined.

(** X16: every method writes one collection only.  Whatever the outcome,
    [add_moderators] and [remove_moderators] leave authors, denylist and posts
    as they are, [register] leaves moderators, denylist and posts, and the
    three post methods leave moderators, authors and denylist. *)
Theorem method_frame env (m : method) (this : BlogContract.t) r this' :
  exec env m this = (r, this') →
  denylist this' = denylist this
  ∧ match m with
    | AddModerators _ | RemoveModerators _ =>
        authors this' = authors this ∧ blog_posts this' = blog_posts this
    | Register =>
        moderators this' = moderators this ∧ blog_posts this' = blog_posts this
    | CreateBlogPost _ _ _ | UpdateBlogPost _ _ | RemoveBlogPost _ =>
        moderators this' = moderators this ∧ authors this' = authors this
    end.
Proof. destruct m; run_method; by intros [= <- <-]. Qed.

Lemma method_frame_witness :
  denylist
    (exec (env_of "alice" 0 "p2") (CreateBlogPost "again" "c" "t") registry1).2
  = denylist registry1
  ∧ moderators
      (exec (env_of "alice" 0 "p2") (CreateBlogPost "again" "c" "t")
         registry1).2
    = moderators registry1
  ∧ authors
      (exec (env_of "alice" 0 "p2") (CreateBlogPost "again" "c" "t")
         registry1).2
    = authors registry1.
Proof.
  apply (method_frame (env_of "alice" 0 "p2")
           (CreateBlogPost "again" "c" "t") registry1
           (exec (env_of "alice" 0 "p2") (CreateBlogPost "again" "c" "t")
              registry1).1).
  reflexivity.
Defined.

(** X17: a removed post is gone from every listing.  In a well-formed
    registry, after a successful [remove_blog_post] no page of
    [get_blog_posts], for any arguments, holds a post with the removed id. *)
Theorem removed_post_not_listed env (this : BlogContract.t) blog_id r this' :
  well_formed this →
  remove_blog_post env blog_id this = (Ok r, this') →
  ∀ limit from author_id p,
    p ∈ get_blog_posts limit from author_id this' → BlogPost.id p ≠ blog_id.
Proof.
  intros (_ & _ & _ & Hkeys & Hids) Hok limit from author_id p Hp.
  apply remove_blog_post_Ok in Hok as (q & _ & _ & _ & _ & -> & _).
  unfold get_blog_posts in Hp.
  apply elem_of_js_slice, list_elem_of_In, filter_In in Hp as [Hin _].
  apply list_elem_of_In, list_elem_of_fmap in Hin as ([k p'] & -> & Hin).
  simpl in *.
  pose proof (get_remove_eq (blog_posts this) blog_id Hkeys) as Hgone.
  apply get_None_keys in Hgone.
  rewrite (Hids k p' (elem_of_map_remove _ _ _ _ Hin)).
  intros ->. apply Hgone. apply list_elem_of_fmap. by exists (blog_id, p').
Qed.

Lemma removed_post_not_listed_witness :
  Forall (λ p, BlogPost.id p ≠ "p3")
    (get_blog_posts None None (Some "alice")
       (remove_blog_post (env_of "alice" 0 "seed") "p3" registry5).2).
Proof.
  apply Forall_forall. intros p.
  apply (removed_post_not_listed (env_of "alice" 0 "seed") registry5 "p3"
           (Some (BlogPost.new (env_of "alice" 1 "p3") "three" "c3" "t3"
                    None None None None))).
  - repeat split; try (apply (bool_decide_unpack _); reflexivity).
    intros key q Hin. apply list_elem_of_In in Hin. vm_compute in Hin.
    repeat (destruct Hin as [[= <- <-]|Hin]; [reflexivity|]). destruct Hin.
  - reflexivity.
Defined.

(** ** Registering, and updates that are never stored *)

(** X19: [register] succeeds exactly when one yoctoNEAR is attached and the
    signer is not denylisted.  It then adds the signer to the authors and
    nobody else, after the authors there were when the signer is new, keeps
    the set free of duplicates and leaves the other collections alone. *)
Theorem register_effect env (this : BlogContract.t) :
  (is_ok (register env this).1 = true
   ↔ near.attachedDeposit env = 1%Z
     ∧ near.signerAccountId env ∉ denylist this)
  ∧ (∀ this',
       register env this = (Ok tt, this') →
       (∀ a, a ∈ authors this'
             ↔ a ∈ authors this ∨ a = near.signerAccountId env)
       ∧ (NoDup (authors this) → NoDup (authors this'))
       ∧ (near.signerAccountId env ∉ authors this →
          authors this' = authors this ++ [near.signerAccountId env])
       ∧ moderators this' = moderators this
       ∧ denylist this' = denylist this
       ∧ blog_posts this' = blog_posts this).
Proof.
  rewrite register_unfold. split.
  - rewrite <- contains_not_elem_of.
    destruct (bool_decide (near.attachedDeposit env = 1%Z)) eqn:Hdep.
    + apply bool_decide_eq_true in Hdep.
      destruct (UnorderedSet.contains (denylist this) _); simpl;
        split; try done. by intros [_ ?].
    + apply bool_decide_eq_false in Hdep. simpl.
      split; [done | by intros [? _]].
  - intros this'. repeat case_match; try done. intros [= <-]. simpl.
    split; [intros a; apply elem_of_set|].
    split; [apply NoDup_set|]. split; [|done].
    intros Hnew%contains_not_elem_of. unfold UnorderedSet.set.
    by rewrite Hnew.
Qed.

Lemma register_effect_witness :
  is_ok (register (env_of "bob" 1 "seed") registry1).1 = true.
Proof.
  apply (proj1 (register_effect (env_of "bob" 1 "seed") registry1)).
  split; [reflexivity|]. apply contains_not_elem_of. reflexivity.
Defined.

Lemma target_allowed_iff env (this : BlogContract.t)
    (update_blog : BlogPost.UpdateBlogPost) :
  truthy (prop update_blog "author_id")
  && UnorderedSet.contains (denylist this)
       (default (near.signerAccountId env) (prop update_blog "author_id"))
  = false
  ↔ target_allowed this update_blog.
Proof.
  split; [|apply target_allowed_test].
  intros Htest a Ha Hne. rewrite Ha in Htest. simpl in Htest.
  rewrite (bool_decide_eq_false_2 _ Hne) in Htest. simpl in Htest.
  by apply contains_not_elem_of.
Qed.

(** X20: [update_blog_post] never succeeds and never changes the registry.
    Its guards and [BlogPost.update] pass exactly when the signer is a
    registered author, the post exists with the signer as its author, and the
    patch does not name a non-empty denylisted account as the new author; the
    keys of the patch play no part.  The call then ends in the error of the
    store, which has no serializer to call. *)
Theorem update_blog_post_never_stores env (this : BlogContract.t) blog_id
    update_blog :
  is_ok (update_blog_post env blog_id update_blog this).1 = false
  ∧ (update_blog_post env blog_id update_blog this).2 = this
  ∧ (is_ok (patched_blog_post env blog_id update_blog this).1 = true
     ↔ near.signerAccountId env ∈ authors this
       ∧ (∃ blogPost,
            get_blog_post blog_id this = Some blogPost
            ∧ near.signerAccountId env = BlogPost.author_id blogPost)
       ∧ target_allowed this update_blog)
  ∧ (update_blog_post env blog_id update_blog this
     = (Panic ERR_NO_SERIALIZER, this)
     ↔ is_ok (patched_blog_post env blog_id update_blog this).1 = true).
Proof.
  split; [|split; [|split]].
  - rewrite update_blog_post_unfold. by repeat case_match.
  - rewrite update_blog_post_unfold. by repeat case_match.
  - rewrite patched_blog_post_unfold, <- contains_elem_of,
      <- (target_allowed_iff env). unfold get_blog_post.
    destruct (UnorderedSet.contains (authors this) _); simpl;
      [|split; [done | by intros [? _]]].
    destruct (UnorderedMap.get (blog_posts this) blog_id) as [p|]; simpl;
      [|split; [done | by intros (_ & (? & ? & _) & _)]].
    rewrite reconstruct_id.
    destruct (_ && _); simpl; [split; [done | by intros (_ & _ & ?)]|].
    destruct (bool_decide _) eqn:Hown; simpl.
    + apply bool_decide_eq_true in Hown. split; [|done].
      intros _. split; [done|]. split; [by exists p | done].
    + apply bool_decide_eq_false in Hown. split; [done|].
      intros (_ & (q & [= <-] & ?) & _). done.
  - rewrite update_blog_post_unfold, patched_blog_post_unfold.
    repeat case_match; simpl; split; (done || by intros [=]).
Qed.
